(** * heic2jpg: the transcoding worker, discovery and the drain loop

    A shallow embedding of [src/heic2jpg.py].  The image codec (Pillow,
    pillow-heif, ImageCms) is an external collaborator: it is a record of
    operations, [Codec], that the worker is parameterised over.  The file
    system is explicit state; every file-system call of the worker is
    logged together with the file system it ran on. *)

From Stdlib Require Import List String Ascii Bool Arith ZArith Lia.
From Stdlib Require Import Strings.Byte.
From Stdlib Require Import Permutation Sorted.
Import ListNotations.
Local Open Scope string_scope.

Set Implicit Arguments.

(** ** Python strings *)

Module Str.

Definition chars (s : string) : list ascii := list_ascii_of_string s.
Definition text (l : list ascii) : string := string_of_list_ascii l.

Definition is_upper (c : ascii) : bool :=
  let n := nat_of_ascii c in ((65 <=? n) && (n <=? 90))%nat.
Definition is_lower (c : ascii) : bool :=
  let n := nat_of_ascii c in ((97 <=? n) && (n <=? 122))%nat.

(** [str.lower] and [str.upper], on ASCII text. *)
Definition lower_char (c : ascii) : ascii :=
  if is_upper c then ascii_of_nat (nat_of_ascii c + 32) else c.
Definition upper_char (c : ascii) : ascii :=
  if is_lower c then ascii_of_nat (nat_of_ascii c - 32) else c.

Definition lower (s : string) : string := text (map lower_char (chars s)).
Definition upper (s : string) : string := text (map upper_char (chars s)).

(** [str.rfind(c)]: the index of the last occurrence of [c]. *)
Fixpoint rfind (c : ascii) (l : list ascii) : option nat :=
  match l with
  | [] => None
  | x :: t =>
      match rfind c t with
      | Some i => Some (S i)
      | None => if Ascii.eqb x c then Some 0 else None
      end
  end.

(** [s.endswith(e)]. *)
Definition endswith (s e : string) : bool :=
  let ls := chars s in
  let le := chars e in
  (List.length le <=? List.length ls)%nat &&
  String.eqb (text (skipn (List.length ls - List.length le) ls)) e.

(** [s < t] on strings: lexicographic on code points. *)
Fixpoint ltb_chars (a b : list ascii) : bool :=
  match a, b with
  | _, [] => false
  | [], _ :: _ => true
  | x :: a', y :: b' =>
      if (nat_of_ascii x <? nat_of_ascii y)%nat then true
      else if (nat_of_ascii y <? nat_of_ascii x)%nat then false
      else ltb_chars a' b'
  end.
Definition ltb (s t : string) : bool := ltb_chars (chars s) (chars t).

End Str.

(** ** pathlib *)

Record Path := mkPath { parent : string; name : string }.

Definition Path_eqb (p q : Path) : bool :=
  String.eqb (parent p) (parent q) && String.eqb (name p) (name q).

(** [str(path)] *)
Definition path_str (p : Path) : string := parent p ++ "/" ++ name p.

(** [PurePath.suffix]:
    [i = name.rfind('.'); name[i:] if 0 < i < len(name) - 1 else ''] *)
Definition suffix (p : Path) : string :=
  let l := Str.chars (name p) in
  match Str.rfind "."%char l with
  | Some i => if ((0 <? i) && (i <? List.length l - 1))%nat then Str.text (skipn i l) else ""
  | None => ""
  end.

(** ** Exceptions *)

Inductive exc_class :=
  | BaseException | KeyboardInterrupt | Exception
  | MemoryError | IndexError | DecompressionBombError | PyCMSError
  | ValueError | OSError | PermissionError | FileNotFoundError
  | UnidentifiedImageError.

Scheme Equality for exc_class.

(** The direct base class. *)
Definition base (c : exc_class) : option exc_class :=
  match c with
  | BaseException => None
  | KeyboardInterrupt => Some BaseException
  | Exception => Some BaseException
  | MemoryError | IndexError | DecompressionBombError | PyCMSError
  | ValueError | OSError => Some Exception
  | PermissionError | FileNotFoundError | UnidentifiedImageError => Some OSError
  end.

Fixpoint inherits (fuel : nat) (c d : exc_class) : bool :=
  exc_class_beq c d ||
  match fuel, base c with
  | S f, Some b => inherits f b d
  | _, _ => false
  end.

Definition issubclass (c d : exc_class) : bool := inherits 3 c d.

Record exc := mkExc { cls : exc_class; args : string }.

Definition isinstance (e : exc) (ds : list exc_class) : bool :=
  existsb (issubclass (cls e)) ds.

Definition class_name (c : exc_class) : string :=
  match c with
  | BaseException => "BaseException"
  | KeyboardInterrupt => "KeyboardInterrupt"
  | Exception => "Exception"
  | MemoryError => "MemoryError"
  | IndexError => "IndexError"
  | DecompressionBombError => "DecompressionBombError"
  | PyCMSError => "PyCMSError"
  | ValueError => "ValueError"
  | OSError => "OSError"
  | PermissionError => "PermissionError"
  | FileNotFoundError => "FileNotFoundError"
  | UnidentifiedImageError => "UnidentifiedImageError"
  end.

(** [repr(e)] and [str(e)] *)
Definition repr (e : exc) : string := class_name (cls e) ++ "('" ++ args e ++ "')".
Definition str_exc (e : exc) : string := args e.

(** A call either returns or raises. *)
Inductive res (A : Type) : Type :=
  | Return (a : A)
  | Raise (e : exc).
Arguments Return {A} a.
Arguments Raise {A} e.

(** [PurePath.with_suffix(sfx)], for a well-formed [sfx] such as ".jpg":
    [ValueError] on an empty name; the old suffix, if any, is cut off the
    name and [sfx] is appended. *)
Definition with_suffix (p : Path) (sfx : string) : res Path :=
  if String.eqb (name p) "" then
    Raise (mkExc ValueError (path_str p ++ " has an empty name"))
  else
    let old := suffix p in
    let l := Str.chars (name p) in
    let nm :=
      if String.eqb old "" then name p ++ sfx
      else Str.text (firstn (List.length l - String.length old) l) ++ sfx in
    Return (mkPath (parent p) nm).

(** ** The file system *)

Definition bytes := list byte.

(** [b] is truthy in Python: present and not empty. *)
Definition truthy (b : option bytes) : bool :=
  match b with
  | Some (_ :: _) => true
  | _ => false
  end.

(** What the worker can observe of the file system: the bytes stored at a
    path, and whether the operating system lets the entry at a path be
    removed (a read-only directory or a lock held by another process makes
    [unlink] fail with [PermissionError]). *)
Record FS := mkFS {
  content : Path -> option bytes;
  removable : Path -> bool
}.

Definition fs_has (s : FS) (p : Path) : bool :=
  match content s p with
  | Some _ => true
  | None => false
  end.

Definition fs_set (s : FS) (p : Path) (o : option bytes) : FS :=
  mkFS (fun q => if Path_eqb q p then o else content s q) (removable s).

(** Arguments of [Image.save], as [_save_jpeg] builds them. *)
Record SaveArgs := mkSaveArgs {
  sa_format : string;
  sa_quality : Z;
  sa_subsampling : Z;
  sa_optimize : bool;
  sa_progressive : bool;
  sa_exif : option bytes;
  sa_icc_profile : option bytes
}.

(** File-system calls, with what they returned. *)
Inductive Event :=
  | EvExists (p : Path) (r : bool)
  | EvStat (p : Path) (r : res nat)
  | EvOpen (p : Path)
  | EvSave (p : Path) (kw : SaveArgs) (raised : option exc)
  | EvUnlink (p : Path) (raised : option exc).

(** The state threaded through the worker: the file system, and the log
    of the calls made so far, each with the file system it was made on. *)
Record World := mkWorld {
  fs : FS;
  log : list (Event * FS)
}.

Definition M (A : Type) : Type := World -> res A * World.

Definition ret {A} (a : A) : M A := fun w => (Return a, w).
Definition bind {A B} (c : M A) (k : A -> M B) : M B :=
  fun w =>
    match c w with
    | (Return a, w') => k a w'
    | (Raise e, w') => (Raise e, w')
    end.
Definition lift {A} (r : res A) : M A := fun w => (r, w).

(** [try: c  except <classes> as e: h e] *)
Definition try_except {A} (c : M A) (classes : list exc_class) (h : exc -> M A) : M A :=
  fun w =>
    match c w with
    | (Return a, w') => (Return a, w')
    | (Raise e, w') => if isinstance e classes then h e w' else (Raise e, w')
    end.

Notation "x <- c ;; k" := (bind c (fun x => k))
  (at level 61, c at next level, right associativity).
Notation "c ;;; k" := (bind c (fun _ => k))
  (at level 61, right associativity).

(** [Path.exists()] *)
Definition path_exists (p : Path) : M bool :=
  fun w =>
    let r := fs_has (fs w) p in
    (Return r, mkWorld (fs w) (log w ++ [(EvExists p r, fs w)])%list).

(** [Path.stat().st_size] *)
Definition stat_st_size (p : Path) : M nat :=
  fun w =>
    let r := match content (fs w) p with
             | Some b => Return (List.length b)
             | None => Raise (mkExc FileNotFoundError (path_str p))
             end in
    (r, mkWorld (fs w) (log w ++ [(EvStat p r, fs w)])%list).

(** [Path.unlink()] *)
Definition unlink (p : Path) : M unit :=
  fun w =>
    match content (fs w) p with
    | None =>
        let e := mkExc FileNotFoundError (path_str p) in
        (Raise e, mkWorld (fs w) (log w ++ [(EvUnlink p (Some e), fs w)])%list)
    | Some _ =>
        if removable (fs w) p then
          (Return tt,
           mkWorld (fs_set (fs w) p None) (log w ++ [(EvUnlink p None, fs w)])%list)
        else
          let e := mkExc PermissionError (path_str p) in
          (Raise e, mkWorld (fs w) (log w ++ [(EvUnlink p (Some e), fs w)])%list)
    end.

(** ** The image codec *)

Record Codec := mkCodec {
  image : Type;
  profile : Type;
  (** [Image.open(path)], on the bytes stored at the path *)
  Image_open : option bytes -> res image;
  (** [ImageOps.exif_transpose(im)] *)
  exif_transpose : image -> res image;
  (** [im.getexif().tobytes()] *)
  getexif_tobytes : image -> res bytes;
  (** [im.info.get("icc_profile")] *)
  info_icc_profile : image -> option bytes;
  getbands : image -> list string;
  mode : image -> string;
  size : image -> nat * nat;
  (** [im.convert(mode)] *)
  convert : image -> string -> res image;
  (** [Image.new(mode, size, color)] *)
  Image_new : string -> nat * nat -> Z * Z * Z -> res image;
  (** [im.split()] *)
  split : image -> res (list image);
  (** [bg.paste(im, mask=mask)]: the background after the paste *)
  paste : image -> image -> image -> res image;
  (** whether [from PIL import ImageCms] succeeded *)
  HAVE_CMS : bool;
  (** [ImageCms.createProfile(name)] *)
  createProfile : string -> res profile;
  (** [ImageCms.ImageCmsProfile(prof).tobytes()] *)
  profile_tobytes : profile -> res bytes;
  (** [ImageCms.ImageCmsProfile(io.BytesIO(icc))] *)
  ImageCmsProfile : bytes -> res profile;
  (** [ImageCms.profileToProfile(im, src, dst, outputMode="RGB", renderingIntent=0)] *)
  profileToProfile : image -> profile -> profile -> res image;
  (** [im.save(path, **kw)] on a path holding the given bytes: whether it
      raised, and what the path holds afterwards *)
  Image_save : image -> SaveArgs -> option bytes -> option exc * option bytes
}.

Definition DEFAULT_QUALITY : Z := 92.
Definition DEFAULT_SUBSAMPLING : Z := 2.
Definition DEFAULT_OPTIMIZE : bool := true.
Definition DEFAULT_PROGRESSIVE : bool := true.
Definition ALPHA_BG : Z * Z * Z := (255, 255, 255)%Z.

(** Pure code that may raise. *)
Definition rbind {A B} (r : res A) (k : A -> res B) : res B :=
  match r with
  | Return a => k a
  | Raise e => Raise e
  end.
Notation "x <~ r ;; k" := (rbind r (fun x => k))
  (at level 61, r at next level, right associativity).

(** [l[-1]] *)
Definition last_item {A} (l : list A) : res A :=
  match rev l with
  | x :: _ => Return x
  | [] => Raise (mkExc IndexError "tuple index out of range")
  end.

(** The worker's result: [(status, src_path, message_or_dest)]. *)
Inductive Status := converted | skipped | failed.
Definition Outcome : Type := Status * string * string.

Section Worker.

Variable C : Codec.

(** [Image.open(path)] *)
Definition open_image (p : Path) : M (image C) :=
  fun w =>
    (Image_open C (content (fs w) p),
     mkWorld (fs w) (log w ++ [(EvOpen p, fs w)])%list).

(** [im.save(path, **kw)] *)
Definition save_image (im : image C) (p : Path) (kw : SaveArgs) : M unit :=
  fun w =>
    let '(raised, after) := Image_save C im kw (content (fs w) p) in
    (match raised with Some e => Raise e | None => Return tt end,
     mkWorld (fs_set (fs w) p after)
             (log w ++ [(EvSave p kw raised, fs w)])%list).

Definition _exif_orient_and_flatten (im : image C) (bg : Z * Z * Z) : res (image C) :=
  im <~ exif_transpose C im ;;
  if existsb (String.eqb "A") (getbands C im) then
    im_rgba <~ convert C im "RGBA" ;;
    bg_img <~ Image_new C "RGB" (size C im_rgba) bg ;;
    bands <~ split C im_rgba ;;
    mask <~ last_item bands ;;
    bg_img <~ paste C bg_img im_rgba mask ;;
    Return bg_img
  else if negb (String.eqb (mode C im) "RGB") then
    convert C im "RGB"
  else
    Return im.

Definition _convert_to_srgb (im : image C) (src_icc : option bytes)
  : res (image C * option bytes) :=
  if negb (HAVE_CMS C) then Return (im, src_icc)
  else
    match createProfile C "sRGB" with
    | Raise e =>
        if isinstance e [Exception] then Return (im, src_icc) else Raise e
    | Return srgb_prof =>
    match profile_tobytes C srgb_prof with
    | Raise e =>
        if isinstance e [Exception] then Return (im, src_icc) else Raise e
    | Return srgb_bytes =>
        if truthy src_icc then
          match ImageCmsProfile C (match src_icc with Some b => b | None => [] end) with
          | Raise e =>
              if isinstance e [Exception] then Return (im, src_icc) else Raise e
          | Return src_prof =>
              match (if negb (String.eqb (mode C im) "RGB")
                     then convert C im "RGB" else Return im) with
              | Raise e =>
                  if isinstance e [Exception] then Return (im, src_icc) else Raise e
              | Return im1 =>
                  match profileToProfile C im1 src_prof srgb_prof with
                  | Raise e =>
                      if isinstance e [Exception] then Return (im1, src_icc)
                      else Raise e
                  | Return im2 => Return (im2, Some srgb_bytes)
                  end
              end
          end
        else Return (im, Some srgb_bytes)
    end
    end.

Definition _save_jpeg (im : image C) (dst_path : Path)
    (quality subsampling : Z) (optimize progressive : bool)
    (exif icc_profile : option bytes) : M unit :=
  let save_kwargs :=
    mkSaveArgs "JPEG" quality subsampling optimize progressive
               (if truthy exif then exif else None)
               (if truthy icc_profile then icc_profile else None) in
  save_image im dst_path save_kwargs.

(** Lines 196-227: the body of [with Image.open(src_path) as im]. *)
Definition with_block (src_path dst_path : Path)
    (quality subsampling : Z) (optimize progressive : bool)
    (icc_mode : string) : M unit :=
  im <- open_image src_path ;;
  im <- lift (exif_transpose C im) ;;
  exif_bytes <- lift (getexif_tobytes C im) ;;
  let src_icc := info_icc_profile C im in
  im <- lift (_exif_orient_and_flatten im ALPHA_BG) ;;
  r <- (if String.eqb icc_mode "srgb" then lift (_convert_to_srgb im src_icc)
        else if String.eqb icc_mode "keep" then ret (im, src_icc)
        else ret (im, None)) ;;
  _save_jpeg (fst r) dst_path quality subsampling optimize progressive
             (if truthy (Some exif_bytes) then Some exif_bytes else None)
             (snd r).

(** Line 230: [dst_path.exists() and dst_path.stat().st_size > 0] *)
Definition verify_output (dst_path : Path) : M bool :=
  ex <- path_exists dst_path ;;
  if ex then sz <- stat_st_size dst_path ;; ret (0 <? sz)%nat
  else ret false.

(** Lines 238-242 and 246-250:
    [try: if dst_path.exists(): dst_path.unlink()  except Exception: pass] *)
Definition cleanup (dst_path : Path) : M unit :=
  try_except
    (ex <- path_exists dst_path ;;
     if ex then unlink dst_path else ret tt)
    [Exception]
    (fun _ => ret tt).

(** Lines 229-243: verify the output, then delete the original. *)
Definition verify_then_delete (src_path dst_path : Path) : M Outcome :=
  verified <- verify_output dst_path ;;
  if verified then
    try_except
      (unlink src_path ;;;
       ret (converted, path_str src_path, path_str dst_path))
      [Exception]
      (fun del_err =>
         ret (converted, path_str src_path,
              path_str dst_path ++ " (warning: could not delete source: "
                ++ str_exc del_err ++ ")"))
  else
    cleanup dst_path ;;;
    ret (failed, path_str src_path, "empty or missing output").

(** Lines 196-243: the body of the worker's [try]. *)
Definition try_body (src_path dst_path : Path)
    (quality subsampling : Z) (optimize progressive : bool)
    (icc_mode : string) : M Outcome :=
  with_block src_path dst_path quality subsampling optimize progressive icc_mode ;;;
  verify_then_delete src_path dst_path.

Definition _convert_one (src_path : Path) (overwrite : bool)
    (quality subsampling : Z) (optimize progressive : bool)
    (icc_mode : string) : M Outcome :=
  dst_path <- lift (with_suffix src_path ".jpg") ;;
  ex <- path_exists dst_path ;;
  if ex && negb overwrite then
    ret (skipped, path_str src_path, "destination exists")
  else
    try_except
      (try_body src_path dst_path quality subsampling optimize progressive icc_mode)
      [UnidentifiedImageError; OSError; ValueError]
      (fun e =>
         cleanup dst_path ;;;
         ret (failed, path_str src_path, repr e)).

End Worker.

(** ** A small codec for running the worker on concrete inputs *)

Module Fixture.

Record pic := mkPic {
  pic_mode : string;
  pic_icc : option bytes;
  pic_data : bytes
}.

(** The first byte of a file selects what decoding it does. *)
Definition decode (o : option bytes) : res pic :=
  match o with
  | None => Raise (mkExc FileNotFoundError "No such file or directory")
  | Some [] => Raise (mkExc UnidentifiedImageError "cannot identify image file")
  | Some (x01 :: d) => Return (mkPic "RGB" None d)
  | Some (x02 :: d) => Return (mkPic "RGB" (Some [x58]) d)
  | Some (x03 :: d) => Return (mkPic "RGB" (Some [x00; x58]) d)
  | Some (x04 :: d) => Return (mkPic "RGBA" None d)
  | Some (xff :: _) =>
      Raise (mkExc DecompressionBombError "Image size exceeds limit")
  | Some (_ :: _) => Raise (mkExc UnidentifiedImageError "cannot identify image file")
  end.

Definition bands_of (m : string) : list string :=
  if String.eqb m "RGBA" then ["R"; "G"; "B"; "A"] else ["R"; "G"; "B"].

(** A profile whose first byte is zero does not parse. *)
Definition parse_profile (b : bytes) : res bytes :=
  match b with
  | x00 :: _ => Raise (mkExc PyCMSError "cannot open profile from string")
  | _ => Return b
  end.

Definition srgb : bytes := [x73; x52; x47; x42].

Definition encoded (im : pic) (kw : SaveArgs) : bytes :=
  ([xff; xd8] ++ match sa_icc_profile kw with Some b => b | None => [] end
     ++ pic_data im)%list.

Definition save_ok (im : pic) (kw : SaveArgs) (old : option bytes)
  : option exc * option bytes := (None, Some (encoded im kw)).
Definition save_empty (im : pic) (kw : SaveArgs) (old : option bytes)
  : option exc * option bytes := (None, Some []).
Definition save_partial (im : pic) (kw : SaveArgs) (old : option bytes)
  : option exc * option bytes :=
  (Some (mkExc OSError "No space left on device"), Some [xff; xd8]).

Definition codec
    (save : pic -> SaveArgs -> option bytes -> option exc * option bytes) : Codec :=
  {| image := pic;
     profile := bytes;
     Image_open := decode;
     exif_transpose := fun im => Return im;
     getexif_tobytes := fun _ => Return [];
     info_icc_profile := pic_icc;
     getbands := fun im => bands_of (pic_mode im);
     mode := pic_mode;
     size := fun _ => (1, 1);
     convert := fun im m => Return (mkPic m (pic_icc im) (pic_data im));
     Image_new := fun m _ _ => Return (mkPic m None []);
     split := fun im => Return (map (fun _ => im) (bands_of (pic_mode im)));
     paste := fun bg im _ => Return (mkPic (pic_mode bg) (pic_icc im) (pic_data im));
     HAVE_CMS := true;
     createProfile := fun _ => Return srgb;
     profile_tobytes := fun p => Return p;
     ImageCmsProfile := parse_profile;
     profileToProfile := fun im _ _ => Return im;
     Image_save := save |}.

Definition a_heic : Path := mkPath "/photos" "a.heic".
Definition a_jpg : Path := mkPath "/photos" "a.jpg".

(** A directory holding [a.heic] with the given bytes and, when [old] is
    given, [a.jpg]; [locked] paths cannot be unlinked. *)
Definition disk (src : bytes) (old : option bytes) (locked : Path -> bool) : FS :=
  mkFS (fun p => if Path_eqb p a_heic then Some src
                 else if Path_eqb p a_jpg then old else None)
       (fun p => negb (locked p)).

Definition start (s : FS) : World := mkWorld s [].

End Fixture.

(** ** Discovery *)

Definition HEIF_EXTS : list string := [".heic"; ".heif"; ".heics"; ".heifs"].

Definition str_in (s : string) (l : list string) : bool := existsb (String.eqb s) l.

(** The directory tree discovery runs on.  [walk d] lists every entry
    below the directory [d], at any depth.  [case_sensitive] is the
    pathlib flavour's: true on POSIX, where glob patterns are matched
    against names as spelled, false on Windows. *)
Record Tree := mkTree {
  is_dir : Path -> bool;
  is_file : Path -> bool;
  walk : Path -> list Path;
  resolve : Path -> Path;
  case_sensitive : bool
}.

(** A name against the pattern ["*" + ext]; [ext] has no wildcard. *)
Definition fnmatch_star (sensitive : bool) (nm ext : string) : bool :=
  if sensitive then Str.endswith nm ext
  else Str.endswith (Str.lower nm) (Str.lower ext).

(** [p.rglob("*" + ext)] *)
Definition rglob (t : Tree) (p : Path) (ext : string) : list Path :=
  filter (fun q => fnmatch_star (case_sensitive t) (name q) ext) (walk t p).

(** [d[k] = v] on a dict, kept in insertion order. *)
Fixpoint dict_set {V} (d : list (string * V)) (k : string) (v : V) : list (string * V) :=
  match d with
  | [] => [(k, v)]
  | (k', v') :: d' =>
      if String.eqb k' k then (k', v) :: d' else (k', v') :: dict_set d' k v
  end.

(** [sorted(l, key=key)]: stable, ascending. *)
Fixpoint insert_by {A} (key : A -> string) (x : A) (l : list A) : list A :=
  match l with
  | [] => [x]
  | y :: l' =>
      if Str.ltb (key x) (key y) then x :: y :: l' else y :: insert_by key x l'
  end.
Definition sorted {A} (key : A -> string) (l : list A) : list A :=
  fold_left (fun acc x => insert_by key x acc) l [].

Definition find_heif_files (t : Tree) (paths : list Path) : list Path :=
  let files :=
    flat_map
      (fun p =>
         if is_dir t p then
           flat_map (fun ext => rglob t p ext ++ rglob t p (Str.upper ext))%list
                    HEIF_EXTS
         else if is_file t p && str_in (Str.lower (suffix p)) HEIF_EXTS then [p]
         else [])
      paths in
  let unique :=
    fold_left (fun d f => dict_set d (path_str (resolve t f)) f) files [] in
  sorted (fun x => Str.lower (path_str x)) (map snd unique).

(** ** The driver: submission and the drain loop *)

Record Args := mkArgs {
  arg_workers : Z;
  arg_quality : Z;
  arg_overwrite : bool;
  arg_icc : string
}.

(** The arguments of one [ex.submit(_convert_one, ...)]. *)
Record Job := mkJob {
  job_src : Path;
  job_overwrite : bool;
  job_quality : Z;
  job_subsampling : Z;
  job_optimize : bool;
  job_progressive : bool;
  job_icc_mode : string
}.

(** Lines 300-312: one future per discovered file. *)
Definition submit_all (args : Args) (heif_files : list Path) : list Job :=
  map (fun p =>
         mkJob p (arg_overwrite args)
               (Z.max 1 (Z.min 100 (arg_quality args)))
               DEFAULT_SUBSAMPLING DEFAULT_OPTIMIZE DEFAULT_PROGRESSIVE
               (arg_icc args))
      heif_files.

Definition run_job (C : Codec) (j : Job) : M Outcome :=
  _convert_one C (job_src j) (job_overwrite j) (job_quality j)
               (job_subsampling j) (job_optimize j) (job_progressive j)
               (job_icc_mode j).

(** The counters of [main] and the failure lines it prints. *)
Record Tally := mkTally {
  ok : nat;
  n_skipped : nat;
  n_failed : nat;
  failures : list string
}.

Definition tally0 : Tally := mkTally 0 0 0 [].

(** Lines 317-326: one outcome. *)
Definition count (o : Outcome) (t : Tally) : Tally :=
  match o with
  | (converted, _, _) => mkTally (ok t + 1) (n_skipped t) (n_failed t) (failures t)
  | (skipped, _, _) => mkTally (ok t) (n_skipped t + 1) (n_failed t) (failures t)
  | (failed, src, info) =>
      mkTally (ok t) (n_skipped t) (n_failed t + 1)
              (List.app (failures t) ["Failed: " ++ src ++ " -> " ++ info])
  end.

(** Lines 314-346.  [as_completed] yields the futures in completion order;
    an element of [completions] is what [fut.result()] does for the next
    one, and the value of [stop] when line 336 reads it.  A
    [KeyboardInterrupt] ends the loop; any other exception leaves [main]. *)
Fixpoint drain (completions : list (res Outcome * bool)) (t : Tally) : res Tally :=
  match completions with
  | [] => Return t
  | (Raise e, _) :: _ =>
      if isinstance e [KeyboardInterrupt] then Return t else Raise e
  | (Return o, stop) :: rest =>
      let t' := count o t in
      if stop then Return t' else drain rest t'
  end.

Definition exit_code (t : Tally) : Z := if Nat.eqb (n_failed t) 0 then 0%Z else 2%Z.

(** The completions the loop gets to: all of them up to the first one
    after which [stop] is set. *)
Fixpoint drained (completions : list (Outcome * bool)) : list Outcome :=
  match completions with
  | [] => []
  | (o, stop) :: rest => if stop then [o] else o :: drained rest
  end.

Definition status_of (o : Outcome) : Status := fst (fst o).
Definition status_eqb (a b : Status) : bool :=
  match a, b with
  | converted, converted | skipped, skipped | failed, failed => true
  | _, _ => false
  end.
Definition count_status (s : Status) (l : list Outcome) : nat :=
  List.length (filter (fun o => status_eqb (status_of o) s) l).
Definition returned (completions : list (Outcome * bool)) : list (res Outcome * bool) :=
  map (fun c => (Return (fst c), snd c)) completions.

(** ** The runs of the worker, as relations *)

(** The handler classes of the worker's [except]. *)
Definition worker_catches : list exc_class := [UnidentifiedImageError; OSError; ValueError].

Section Runs.

Variables src dst : Path.

(** What the body of the [with] can do to the world: it opens the
    source and either raises before it saves, or calls [save] once, on
    the destination. *)
Inductive block_run (w : World) : res unit -> World -> Prop :=
  | block_aborted e :
      block_run w (Raise e)
                (mkWorld (fs w) (log w ++ [(EvOpen src, fs w)])%list)
  | block_saved kw raised after :
      block_run w
                (match raised with Some e => Raise e | None => Return tt end)
                (mkWorld (fs_set (fs w) dst after)
                         (log w ++ [(EvOpen src, fs w);
                                    (EvSave dst kw raised, fs w)])%list).

(** The failure cleanup, started on the file system [s]: the file system
    it leaves and the calls it makes. *)
Inductive cleanup_run (s : FS) : FS -> list (Event * FS) -> Prop :=
  | cleanup_absent :
      content s dst = None ->
      cleanup_run s s [(EvExists dst false, s)]
  | cleanup_removed b :
      content s dst = Some b -> removable s dst = true ->
      cleanup_run s (fs_set s dst None)
                  [(EvExists dst true, s); (EvUnlink dst None, s)]
  | cleanup_denied b :
      content s dst = Some b -> removable s dst = false ->
      cleanup_run s s
                  [(EvExists dst true, s);
                   (EvUnlink dst (Some (mkExc PermissionError (path_str dst))), s)].

(** Verify-then-delete, started on the file system [s]. *)
Inductive verify_run (s : FS) : Outcome -> FS -> list (Event * FS) -> Prop :=
  | verify_missing s' tail :
      content s dst = None ->
      cleanup_run s s' tail ->
      verify_run s (failed, path_str src, "empty or missing output") s'
                 ((EvExists dst false, s) :: tail)
  | verify_empty s' tail :
      content s dst = Some [] ->
      cleanup_run s s' tail ->
      verify_run s (failed, path_str src, "empty or missing output") s'
                 ((EvExists dst true, s) :: (EvStat dst (Return 0), s) :: tail)
  | verify_deleted b :
      content s dst = Some b -> (0 < List.length b)%nat ->
      content s src <> None -> removable s src = true ->
      verify_run s (converted, path_str src, path_str dst)
                 (fs_set s src None)
                 [(EvExists dst true, s);
                  (EvStat dst (Return (List.length b)), s);
                  (EvUnlink src None, s)]
  | verify_kept b del_err :
      content s dst = Some b -> (0 < List.length b)%nat ->
      content s src = None \/ removable s src = false ->
      isinstance del_err [Exception] = true ->
      verify_run s
                 (converted, path_str src,
                  path_str dst ++ " (warning: could not delete source: "
                    ++ str_exc del_err ++ ")")
                 s
                 [(EvExists dst true, s);
                  (EvStat dst (Return (List.length b)), s);
                  (EvUnlink src (Some del_err), s)].

(** Every way a call of the worker can go, for a source whose
    destination is [dst]: the result, the file system it leaves and the
    calls it makes, from the world [w]. *)
Inductive worker_run (overwrite : bool) (w : World)
  : res Outcome -> FS -> list (Event * FS) -> Prop :=
  | run_skipped b :
      content (fs w) dst = Some b -> overwrite = false ->
      worker_run overwrite w
        (Return (skipped, path_str src, "destination exists"))
        (fs w) [(EvExists dst true, fs w)]
  | run_decode_uncaught e :
      isinstance e worker_catches = false ->
      worker_run overwrite w (Raise e) (fs w)
        [(EvExists dst (fs_has (fs w) dst), fs w); (EvOpen src, fs w)]
  | run_decode_failed e s' tail :
      isinstance e worker_catches = true ->
      cleanup_run (fs w) s' tail ->
      worker_run overwrite w
        (Return (failed, path_str src, repr e)) s'
        ((EvExists dst (fs_has (fs w) dst), fs w) :: (EvOpen src, fs w) :: tail)
  | run_encode_uncaught kw e after :
      isinstance e worker_catches = false ->
      worker_run overwrite w (Raise e) (fs_set (fs w) dst after)
        [(EvExists dst (fs_has (fs w) dst), fs w); (EvOpen src, fs w);
         (EvSave dst kw (Some e), fs w)]
  | run_encode_failed kw e after s' tail :
      isinstance e worker_catches = true ->
      cleanup_run (fs_set (fs w) dst after) s' tail ->
      worker_run overwrite w
        (Return (failed, path_str src, repr e)) s'
        ((EvExists dst (fs_has (fs w) dst), fs w) :: (EvOpen src, fs w)
           :: (EvSave dst kw (Some e), fs w) :: tail)
  | run_encoded kw after o s' tail :
      verify_run (fs_set (fs w) dst after) o s' tail ->
      worker_run overwrite w (Return o) s'
        ((EvExists dst (fs_has (fs w) dst), fs w) :: (EvOpen src, fs w)
           :: (EvSave dst kw None, fs w) :: tail).

End Runs.

(** Every [unlink] of [src] in the calls [added], whether it succeeds or
    not, comes right after a [save] to [dst] that returned, an [exists]
    of [dst] that answered true and a [stat] of [dst]; and on the file
    system the [unlink] ran on, [dst] holds a file that is not empty. *)
Definition deletion_guarded (src dst : Path) (added : list (Event * FS)) : Prop :=
  forall l1 raised s l2,
    added = (l1 ++ (EvUnlink src raised, s) :: l2)%list ->
    exists l0 kw s0 b,
      l1 = (l0 ++ [(EvSave dst kw None, s0);
                   (EvExists dst true, s);
                   (EvStat dst (Return (List.length b)), s)])%list /\
      content s dst = Some b /\ (0 < List.length b)%nat.


(** Lines 136-140, the body of the inner [try] of [_convert_to_srgb]: the
    error it raises, if it raises one. *)
Definition transform_error (C : Codec) (im : image C) (icc : bytes)
    (srgb_prof : profile C) : option exc :=
  match ImageCmsProfile C icc with
  | Raise e => Some e
  | Return src_prof =>
      match (if negb (String.eqb (mode C im) "RGB")
             then convert C im "RGB" else Return im) with
      | Raise e => Some e
      | Return im1 =>
          match profileToProfile C im1 src_prof srgb_prof with
          | Raise e => Some e
          | Return _ => None
          end
      end
  end.

(** A directory [/photos] on a POSIX system, holding three images whose
    extensions are spelled in lower, upper and mixed case, and a note. *)
Module Album.

Definition photos : Path := mkPath "" "photos".
Definition lower_case : Path := mkPath "/photos" "IMG_2.heic".
Definition upper_case : Path := mkPath "/photos" "IMG_3.HEIF".
Definition mixed_case : Path := mkPath "/photos" "IMG_1.HeiC".
Definition note : Path := mkPath "/photos" "notes.txt".

Definition entries : list Path := [mixed_case; lower_case; upper_case; note].

Definition tree : Tree :=
  {| is_dir := Path_eqb photos;
     is_file := fun p => existsb (Path_eqb p) entries;
     walk := fun d => if Path_eqb d photos then entries else [];
     resolve := fun p => p;
     case_sensitive := true |}.

End Album.

(** What [_save_jpeg] hands to [Image.save]: the JPEG format, the
    settings it was given, and for the EXIF block and the profile either
    nothing or bytes that are not empty. *)
Definition jpeg_args (quality subsampling : Z) (optimize progressive : bool)
    (kw : SaveArgs) : Prop :=
  sa_format kw = "JPEG" /\
  sa_quality kw = quality /\
  sa_subsampling kw = subsampling /\
  sa_optimize kw = optimize /\
  sa_progressive kw = progressive /\
  sa_exif kw <> Some [] /\
  sa_icc_profile kw <> Some [].

(** An entry of the log that is a call of [Image.save]. *)
Definition is_save (ev : Event) : bool :=
  match ev with
  | EvSave _ _ _ => true
  | _ => false
  end.

(** The files [find_heif_files] collects before it removes duplicates
    (lines 78-85). *)
Definition candidates (t : Tree) (paths : list Path) : list Path :=
  flat_map
    (fun p =>
       if is_dir t p then
         flat_map (fun ext => rglob t p ext ++ rglob t p (Str.upper ext))%list
                  HEIF_EXTS
       else if is_file t p && str_in (Str.lower (suffix p)) HEIF_EXTS then [p]
       else [])
    paths.

(** The key of the deduplication, [str(f.resolve())], and the key of the
    sort, [str(x).lower()]. *)
Definition resolved (t : Tree) (f : Path) : string := path_str (resolve t f).
Definition sort_key (x : Path) : string := Str.lower (path_str x).


(** ** The prompt and the flow of [main] *)









(** * Properties *)

(** ** Strings and paths *)

Lemma chars_text l : Str.chars (Str.text l) = l.
Proof. apply list_ascii_of_string_of_list_ascii. Qed.

Lemma text_chars s : Str.text (Str.chars s) = s.
Proof. apply string_of_list_ascii_of_string. Qed.

Lemma chars_append s t : Str.chars (s ++ t) = (Str.chars s ++ Str.chars t)%list.
Proof.
  unfold Str.chars. induction s as [|c s IH]; simpl; [reflexivity|].
  now rewrite IH.
Qed.

Lemma length_text l : String.length (Str.text l) = List.length l.
Proof.
  unfold Str.text. induction l as [|c l IH]; simpl; [reflexivity|].
  now rewrite IH.
Qed.

Lemma Path_eqb_refl p : Path_eqb p p = true.
Proof. unfold Path_eqb. now rewrite !String.eqb_refl. Qed.

Lemma Path_eqb_eq p q : Path_eqb p q = true <-> p = q.
Proof.
  unfold Path_eqb. destruct p as [a b], q as [c d]; simpl.
  rewrite andb_true_iff, !String.eqb_eq. split.
  - now intros [-> ->].
  - intros H. injection H as -> ->. now split.
Qed.

(** The suffix of a path, when there is one, is a proper tail of its name. *)
Lemma suffix_tail p :
  suffix p <> "" ->
  exists i, (i < List.length (Str.chars (name p)))%nat /\
            suffix p = Str.text (skipn i (Str.chars (name p))).
Proof.
  unfold suffix. destruct (Str.rfind "." (Str.chars (name p))) as [i|]; [|congruence].
  destruct ((0 <? i)%nat && (i <? List.length (Str.chars (name p)) - 1)%nat) eqn:E;
    [|congruence].
  intros _. apply andb_true_iff in E as [_ E]. apply Nat.ltb_lt in E.
  exists i. split; [lia | reflexivity].
Qed.

(** A path with a recognised input extension has a destination, and the
    destination is another path. *)
Lemma heif_destination p :
  str_in (Str.lower (suffix p)) HEIF_EXTS = true ->
  exists dst, with_suffix p ".jpg" = Return dst /\ Path_eqb p dst = false.
Proof.
  intros H.
  assert (Hs : suffix p <> "") by (intros E; rewrite E in H; discriminate H).
  destruct (suffix_tail p Hs) as (i & Hi & Ei).
  unfold with_suffix.
  destruct (String.eqb (name p) "") eqn:En.
  { apply String.eqb_eq in En. rewrite En in Hi. simpl in Hi. lia. }
  destruct (String.eqb (suffix p) "") eqn:E0.
  { apply String.eqb_eq in E0. contradiction. }
  eexists. split; [reflexivity|].
  destruct (Path_eqb p _) eqn:Eq; [|reflexivity]. exfalso.
  apply Path_eqb_eq in Eq. apply (f_equal name) in Eq. simpl in Eq.
  rewrite Ei, length_text, length_skipn in Eq.
  replace (List.length (Str.chars (name p)) - (List.length (Str.chars (name p)) - i))%nat
    with i in Eq by lia.
  apply (f_equal Str.chars) in Eq.
  rewrite chars_append, chars_text in Eq.
  rewrite <- (firstn_skipn i (Str.chars (name p))) in Eq at 1.
  apply app_inv_head in Eq.
  rewrite Ei, Eq in H. vm_compute in H. discriminate H.
Qed.

(** ** The worker *)

Section WorkerFacts.

Variable C : Codec.
Variables src dst : Path.
Variables quality subsampling : Z.
Variables optimize progressive : bool.
Variable icc_mode : string.

Lemma with_block_run w :
  block_run src dst w
    (fst (with_block C src dst quality subsampling optimize progressive icc_mode w))
    (snd (with_block C src dst quality subsampling optimize progressive icc_mode w)).
Proof.
  unfold with_block, bind, lift, open_image, _save_jpeg, save_image, ret.
  destruct (Image_open C (content (fs w) src)) as [im0|e]; simpl;
    [|apply block_aborted].
  destruct (exif_transpose C im0) as [im1|e]; simpl; [|apply block_aborted].
  destruct (getexif_tobytes C im1) as [exif|e]; simpl; [|apply block_aborted].
  destruct (_exif_orient_and_flatten C im1 ALPHA_BG) as [im2|e]; simpl;
    [|apply block_aborted].
  destruct (String.eqb icc_mode "srgb"); simpl.
  - destruct (_convert_to_srgb C im2 (info_icc_profile C im1)) as [[im3 icc]|e];
      simpl; [|apply block_aborted].
    destruct (Image_save C im3 _ _) as [raised after]; simpl.
    rewrite <- app_assoc. apply block_saved.
  - destruct (String.eqb icc_mode "keep"); simpl;
      destruct (Image_save C im2 _ _) as [raised after]; simpl;
      rewrite <- app_assoc; apply block_saved.
Qed.

End WorkerFacts.

Lemma cleanup_spec dst w :
  exists s' tail,
    cleanup dst w = (Return tt, mkWorld s' (log w ++ tail)%list) /\
    cleanup_run dst (fs w) s' tail.
Proof.
  unfold cleanup, try_except, bind, path_exists, unlink, ret, fs_has.
  destruct (content (fs w) dst) as [b|] eqn:E; simpl.
  - rewrite E. destruct (removable (fs w) dst) eqn:R; simpl.
    + do 2 eexists. rewrite <- app_assoc. split; [reflexivity|].
      now apply cleanup_removed with b.
    + do 2 eexists. rewrite <- app_assoc. split; [reflexivity|].
      now apply cleanup_denied with b.
  - do 2 eexists. split; [reflexivity|]. now apply cleanup_absent.
Qed.


Lemma fs_set_same s p o : content (fs_set s p o) p = o.
Proof. simpl. now rewrite Path_eqb_refl. Qed.

Lemma verify_output_eq dst s l :
  verify_output dst (mkWorld s l) =
  match content s dst with
  | None => (Return false, mkWorld s (l ++ [(EvExists dst false, s)])%list)
  | Some b =>
      (Return (0 <? List.length b)%nat,
       mkWorld s (l ++ [(EvExists dst true, s);
                        (EvStat dst (Return (List.length b)), s)])%list)
  end.
Proof.
  unfold verify_output, bind, path_exists, stat_st_size, ret, fs_has. cbn [fs log].
  destruct (content s dst) as [b|] eqn:E; cbv beta iota; cbn [fs log];
    [|reflexivity].
  rewrite E. now rewrite <- app_assoc.
Qed.

Lemma verify_then_delete_spec src dst s l :
  exists o s' tail,
    verify_then_delete src dst (mkWorld s l) = (Return o, mkWorld s' (l ++ tail)%list) /\
    verify_run src dst s o s' tail.
Proof.
  unfold verify_then_delete, bind. rewrite verify_output_eq.
  destruct (content s dst) as [[|b0 b]|] eqn:Ed.
  - cbn [List.length Nat.ltb Nat.leb].
    match goal with |- context [cleanup dst ?W] =>
      destruct (cleanup_spec dst W) as (s' & tail & E & R) end.
    do 3 eexists. rewrite E. unfold ret. cbn [fs log] in *.
    rewrite <- app_assoc. split; [reflexivity|].
    now apply verify_empty.
  - cbn [List.length Nat.ltb Nat.leb].
    unfold try_except, bind, unlink, ret. cbn [fs log].
    destruct (content s src) as [c|] eqn:Es.
    + destruct (removable s src) eqn:Er.
      * do 3 eexists. rewrite <- app_assoc. split; [reflexivity|].
        apply verify_deleted with (b := b0 :: b);
          [assumption | simpl; lia | congruence | assumption].
      * do 3 eexists. cbn [isinstance]. rewrite <- app_assoc.
        split; [reflexivity|].
        apply verify_kept with (b := b0 :: b);
          [assumption | simpl; lia | now right | reflexivity].
    + do 3 eexists. rewrite <- app_assoc. split; [reflexivity|].
      apply verify_kept with (b := b0 :: b);
        [assumption | simpl; lia | now left | reflexivity].
  - match goal with |- context [cleanup dst ?W] =>
      destruct (cleanup_spec dst W) as (s' & tail & E & R) end.
    do 3 eexists. rewrite E. unfold ret. cbn [fs log] in *.
    rewrite <- app_assoc. split; [reflexivity|].
    now apply verify_missing.
Qed.

Lemma convert_one_run (C : Codec) (src dst : Path) (overwrite : bool)
    (quality subsampling : Z) (optimize progressive : bool) (icc_mode : string)
    (w : World) :
  with_suffix src ".jpg" = Return dst ->
  exists r s' added,
    _convert_one C src overwrite quality subsampling optimize progressive icc_mode w
      = (r, mkWorld s' (log w ++ added)%list) /\
    worker_run src dst overwrite w r s' added.
Proof.
  intros Hd.
  unfold _convert_one, bind, lift. rewrite Hd. unfold path_exists at 1.
  cbv beta iota.
  destruct (fs_has (fs w) dst && negb overwrite) eqn:Esk.
  { apply andb_true_iff in Esk as [Eex Eow].
    assert (Eex' := Eex). unfold fs_has in Eex'.
    destruct (content (fs w) dst) as [old|] eqn:Eold; [|discriminate].
    do 3 eexists. rewrite Eex. split; [reflexivity|].
    apply run_skipped with old; [assumption|]. now destruct overwrite. }
  clear Esk. unfold try_except, try_body, bind.
  match goal with |- context [with_block ?a ?b ?c ?d ?e ?f ?g ?h ?i] =>
      pose proof (with_block_run a b c d e f g h i) as Hb;
      destruct (with_block a b c d e f g h i) as [rb w1] end.
  simpl in Hb. inversion Hb as [e | kw raised after]; subst; clear Hb.
  - (* raised before the save *)
    destruct (isinstance e _) eqn:Ec.
    + match goal with |- context [cleanup dst ?W] =>
        destruct (cleanup_spec dst W) as (s' & tail & E & R) end.
      do 3 eexists. rewrite E. unfold ret. cbn [fs log] in *.
      rewrite <- !app_assoc. split; [reflexivity|].
      now apply run_decode_failed.
    + do 3 eexists. cbn [fs log]. rewrite <- !app_assoc. split; [reflexivity|].
      now apply run_decode_uncaught.
  - destruct raised as [e|].
    + destruct (isinstance e _) eqn:Ec.
      * match goal with |- context [cleanup dst ?W] =>
          destruct (cleanup_spec dst W) as (s' & tail & E & R) end.
        do 3 eexists. rewrite E. unfold ret. cbn [fs log] in *.
        rewrite <- !app_assoc. split; [reflexivity|].
        now apply run_encode_failed with (after := after).
      * do 3 eexists. cbn [fs log]. rewrite <- !app_assoc. split; [reflexivity|].
        now apply run_encode_uncaught with (after := after).
    + match goal with |- context [verify_then_delete src dst (mkWorld ?s ?l)] =>
        destruct (verify_then_delete_spec src dst s l) as (o & s' & tail & E & R) end.
      do 3 eexists. rewrite E. cbn [fs log] in *.
      rewrite <- !app_assoc. split; [reflexivity|].
      now apply run_encoded with (after := after).
Qed.

(** A source with a recognised extension: the run of the worker. *)
Lemma heif_worker_run (C : Codec) (src : Path) (overwrite : bool)
    (quality subsampling : Z) (optimize progressive : bool) (icc_mode : string)
    (w : World) :
  str_in (Str.lower (suffix src)) HEIF_EXTS = true ->
  exists dst r s' added,
    with_suffix src ".jpg" = Return dst /\ Path_eqb src dst = false /\
    _convert_one C src overwrite quality subsampling optimize progressive icc_mode w
      = (r, mkWorld s' (log w ++ added)%list) /\
    worker_run src dst overwrite w r s' added.
Proof.
  intros H. destruct (heif_destination src H) as (dst & Hd & Hne).
  destruct (@convert_one_run C src dst overwrite quality subsampling optimize
              progressive icc_mode w Hd) as (r & s' & added & E & R).
  now exists dst, r, s', added.
Qed.

(** Where an entry sits in a log that is known entry by entry. *)
Ltac log_cases H :=
  match type of H with
  | _ = (?l1 ++ _ :: _)%list =>
      destruct l1 as [| ? l1]; simpl in H;
      [ try discriminate H
      | try discriminate H; injection H as ? H; try log_cases H ]
  end.

Ltac invert_runs :=
  repeat match goal with
         | V : verify_run _ _ _ _ _ _ |- _ => inversion V; subst; clear V
         | K : cleanup_run _ _ _ _ |- _ => inversion K; subst; clear K
         end.

(** ** C1: the source is deleted only after a verified encode *)

(** C1.  For a source with a recognised input extension, whatever the
    codec does and whatever the file system holds: every deletion of the
    source that a call of the worker attempts is guarded as
    [deletion_guarded] says (the encode has returned, the destination has
    been checked, and at the moment of the deletion the destination holds
    a file of non-zero size); and the source is left with the bytes it
    had unless such a deletion succeeded. *)
Theorem source_deleted_only_after_verified_output
    (C : Codec) (src : Path) (overwrite : bool)
    (quality subsampling : Z) (optimize progressive : bool) (icc_mode : string)
    (w : World) :
  str_in (Str.lower (suffix src)) HEIF_EXTS = true ->
  let w' := snd (_convert_one C src overwrite quality subsampling optimize
                              progressive icc_mode w) in
  exists dst added,
    with_suffix src ".jpg" = Return dst /\
    log w' = (log w ++ added)%list /\
    deletion_guarded src dst added /\
    (content (fs w') src = content (fs w) src \/
     exists l1 s l2, added = (l1 ++ (EvUnlink src None, s) :: l2)%list).
Proof.
  intros H. destruct (heif_destination src H) as (dst & Hd & Hne).
  destruct (@convert_one_run C src dst overwrite quality subsampling optimize
              progressive icc_mode w Hd) as (r & s' & added & E & R).
  rewrite E. cbn [snd fs log]. exists dst, added.
  split; [exact Hd|]. split; [reflexivity|].
  assert (Hds : dst <> src) by (intros ->; rewrite Path_eqb_refl in Hne; discriminate).
  split.
  - inversion R; subst; invert_runs; intros l1 raised s l2 Eadd;
      log_cases Eadd; subst; try congruence.
    all: injection Eadd as <- <- <-;
      eexists (_ :: _ :: nil), _, _, _; split; [reflexivity|];
      split; assumption.
  - inversion R; subst; invert_runs;
      try (left; reflexivity);
      try (left; simpl; rewrite ?Hne; reflexivity).
    right. eexists (_ :: _ :: _ :: _ :: _ :: nil), _, nil. reflexivity.
Qed.

Lemma source_deleted_only_after_verified_output_witness :
  str_in (Str.lower (suffix Fixture.a_heic)) HEIF_EXTS = true /\
  let w := Fixture.start (Fixture.disk [x01; x10] None (fun _ => false)) in
  let w' := snd (_convert_one (Fixture.codec Fixture.save_ok) Fixture.a_heic
                              false 92 2 true true "srgb" w) in
  exists dst added,
    with_suffix Fixture.a_heic ".jpg" = Return dst /\
    log w' = (log w ++ added)%list /\
    deletion_guarded Fixture.a_heic dst added /\
    (content (fs w') Fixture.a_heic = content (fs w) Fixture.a_heic \/
     exists l1 s l2, added = (l1 ++ (EvUnlink Fixture.a_heic None, s) :: l2)%list).
Proof.
  split; [reflexivity|].
  apply (source_deleted_only_after_verified_output
           (Fixture.codec Fixture.save_ok) Fixture.a_heic false 92 2 true true
           "srgb" (Fixture.start (Fixture.disk [x01; x10] None (fun _ => false)))).
  reflexivity.
Defined.

(** ** C4: the skip *)

(** C4.  When the destination exists and [overwrite] is false, the worker
    returns Skipped with the reason "destination exists"; its only call is
    the [exists] on the destination (the source is not opened, and the
    result does not depend on the codec); the file system is left as it
    was, so source and destination keep their bytes; and running the
    worker again gives the same outcome and the same file system. *)
Theorem skip_leaves_source_and_destination
    (C : Codec) (src dst : Path)
    (quality subsampling : Z) (optimize progressive : bool) (icc_mode : string)
    (w : World) :
  with_suffix src ".jpg" = Return dst ->
  fs_has (fs w) dst = true ->
  let run := _convert_one C src false quality subsampling optimize progressive icc_mode in
  let w1 := mkWorld (fs w) (log w ++ [(EvExists dst true, fs w)])%list in
  let w2 := mkWorld (fs w) (log w1 ++ [(EvExists dst true, fs w)])%list in
  run w = (Return (skipped, path_str src, "destination exists"), w1) /\
  run w1 = (Return (skipped, path_str src, "destination exists"), w2) /\
  content (fs w1) src = content (fs w) src /\
  content (fs w1) dst = content (fs w) dst.
Proof.
  intros Hd Hex.
  assert (Hrun : forall l,
             _convert_one C src false quality subsampling optimize progressive
                          icc_mode (mkWorld (fs w) l)
             = (Return (skipped, path_str src, "destination exists"),
                mkWorld (fs w) (l ++ [(EvExists dst true, fs w)])%list)).
  { intros l. unfold _convert_one, bind, lift, path_exists, ret.
    rewrite Hd. cbn [fs log]. rewrite Hex. reflexivity. }
  cbv zeta. repeat split.
  - destruct w as [s l]. apply Hrun.
  - apply Hrun.
Qed.

Lemma skip_leaves_source_and_destination_witness :
  let w := Fixture.start (Fixture.disk [x01; x10] (Some [x07]) (fun _ => false)) in
  let run := _convert_one (Fixture.codec Fixture.save_ok) Fixture.a_heic false
                          92 2 true true "srgb" in
  let w1 := mkWorld (fs w) (log w ++ [(EvExists Fixture.a_jpg true, fs w)])%list in
  let w2 := mkWorld (fs w) (log w1 ++ [(EvExists Fixture.a_jpg true, fs w)])%list in
  run w = (Return (skipped, path_str Fixture.a_heic, "destination exists"), w1) /\
  run w1 = (Return (skipped, path_str Fixture.a_heic, "destination exists"), w2) /\
  content (fs w1) Fixture.a_heic = content (fs w) Fixture.a_heic /\
  content (fs w1) Fixture.a_jpg = content (fs w) Fixture.a_jpg.
Proof.
  apply (@skip_leaves_source_and_destination
           (Fixture.codec Fixture.save_ok) Fixture.a_heic Fixture.a_jpg
           92 2 true true "srgb"
           (Fixture.start (Fixture.disk [x01; x10] (Some [x07]) (fun _ => false))));
    reflexivity.
Defined.

(** ** C3: which errors the worker catches *)




(** ** C5 and C9: the failure cleanup *)

(** After the cleanup the destination is gone, or the file system did not
    let it be removed. *)
Lemma cleanup_run_removes dst s s' tail :
  cleanup_run dst s s' tail ->
  content s' dst = None \/
  (removable s dst = false /\ content s' dst = content s dst /\
   exists e, In (EvUnlink dst (Some e), s) tail).
Proof.
  intros R; inversion R; subst.
  - now left.
  - left. apply fs_set_same.
  - right. repeat split; [assumption|]. eexists. right. left. reflexivity.
Qed.

(** C5, as the spec states it, fails: the encoder runs out of space after
    it has written two bytes, the cleanup's [unlink] is refused, the error
    is swallowed, and the item is Failed with the partial file left at the
    destination. *)
Lemma failed_item_can_leave_destination :
  let w := Fixture.start (Fixture.disk [x01; x10] None (Path_eqb Fixture.a_jpg)) in
  let run := _convert_one (Fixture.codec Fixture.save_partial) Fixture.a_heic false
                          92 2 true true "srgb" w in
  fst run = Return (failed, "/photos/a.heic", "OSError('No space left on device')") /\
  content (fs w) Fixture.a_jpg = None /\
  content (fs (snd run)) Fixture.a_jpg = Some [xff; xd8].
Proof. repeat split. Qed.

(** C5, amended.  When the worker returns Failed, the destination does not
    exist afterwards, unless the file system does not let the destination
    be removed: then the cleanup called [unlink] on it, the call raised,
    and the error was swallowed. *)
Theorem failed_item_leaves_no_removable_destination
    (C : Codec) (src : Path) (overwrite : bool)
    (quality subsampling : Z) (optimize progressive : bool) (icc_mode : string)
    (w : World) (s m : string) :
  str_in (Str.lower (suffix src)) HEIF_EXTS = true ->
  let run := _convert_one C src overwrite quality subsampling optimize
                          progressive icc_mode w in
  fst run = Return (failed, s, m) ->
  exists dst,
    with_suffix src ".jpg" = Return dst /\
    (content (fs (snd run)) dst = None \/
     (removable (fs w) dst = false /\
      exists e s1, In (EvUnlink dst (Some e), s1) (log (snd run)))).
Proof.
  intros H.
  destruct (heif_worker_run C src overwrite quality subsampling optimize
              progressive icc_mode w H)
    as (dst & r & s' & added & Hd & Hne & E & R).
  cbv zeta. rewrite E. cbn [fst snd fs log]. intros Er. subst r.
  exists dst. split; [exact Hd|].
  assert (K : forall s0 tail, cleanup_run dst s0 s' tail ->
                removable s0 dst = removable (fs w) dst ->
                incl tail added ->
                content s' dst = None \/
                removable (fs w) dst = false /\
                (exists e s1, In (EvUnlink dst (Some e), s1) (log w ++ added))).
  { intros s0 tail Rc Hr Hin.
    destruct (cleanup_run_removes Rc) as [Hn | (Hf & _ & e & He)]; [now left|].
    right. split; [congruence|]. exists e, s0. apply in_or_app. right.
    now apply Hin. }
  inversion R; subst.
  - eapply K; [eassumption | reflexivity |].
    intros x Hx. now do 2 right.
  - eapply K; [eassumption | reflexivity |].
    intros x Hx. now do 3 right.
  - match goal with V : verify_run _ _ _ _ _ _ |- _ => inversion V; subst end.
    + eapply K; [eassumption | reflexivity |].
      intros x Hx. now do 4 right.
    + eapply K; [eassumption | reflexivity |].
      intros x Hx. now do 5 right.
Qed.

Lemma failed_item_leaves_no_removable_destination_witness :
  let w := Fixture.start (Fixture.disk [x01; x10] None (fun _ => false)) in
  let run := _convert_one (Fixture.codec Fixture.save_empty) Fixture.a_heic false
                          92 2 true true "srgb" w in
  fst run = Return (failed, "/photos/a.heic", "empty or missing output") /\
  exists dst,
    with_suffix Fixture.a_heic ".jpg" = Return dst /\
    (content (fs (snd run)) dst = None \/
     (removable (fs w) dst = false /\
      exists e s1, In (EvUnlink dst (Some e), s1) (log (snd run)))).
Proof.
  split; [reflexivity|].
  apply (@failed_item_leaves_no_removable_destination
           (Fixture.codec Fixture.save_empty) Fixture.a_heic false
           92 2 true true "srgb"
           (Fixture.start (Fixture.disk [x01; x10] None (fun _ => false)))
           "/photos/a.heic" "empty or missing output");
    reflexivity.
Defined.

(** C9, as stated, fails: with [overwrite] set, a destination that was
    there before the call and that the file system does not let be
    removed is still there, with the bytes it had, after the worker has
    returned Failed. *)
Lemma existing_destination_can_survive_failure :
  let w := Fixture.start
             (Fixture.disk [x00; x10] (Some [x07]) (Path_eqb Fixture.a_jpg)) in
  let run := _convert_one (Fixture.codec Fixture.save_ok) Fixture.a_heic true
                          92 2 true true "srgb" w in
  fst run = Return (failed, "/photos/a.heic",
                    "UnidentifiedImageError('cannot identify image file')") /\
  content (fs w) Fixture.a_jpg = Some [x07] /\
  content (fs (snd run)) Fixture.a_jpg = Some [x07].
Proof. repeat split. Qed.

(** C9, amended.  With [overwrite] set and a file at the destination
    before the call, a worker that returns Failed has run its cleanup on
    whatever the destination held: if the file system lets the
    destination be removed, no file is left there; if the attempt wrote
    nothing (it made no [save]), the [unlink] was made on the file system
    of the start, so the file removed is the one that was there before
    the call.  When the file system does not let the destination be
    removed, the cleanup's [unlink] raised and the destination is kept,
    unless the encoder itself removed it. *)
Theorem failure_cleanup_removes_existing_destination
    (C : Codec) (src dst : Path) (old : bytes)
    (quality subsampling : Z) (optimize progressive : bool) (icc_mode : string)
    (w : World) (s m : string) :
  with_suffix src ".jpg" = Return dst ->
  content (fs w) dst = Some old ->
  let run := _convert_one C src true quality subsampling optimize
                          progressive icc_mode w in
  fst run = Return (failed, s, m) ->
  exists added,
    log (snd run) = (log w ++ added)%list /\
    (removable (fs w) dst = true -> content (fs (snd run)) dst = None) /\
    (removable (fs w) dst = true ->
     (forall kw r s1, ~ In (EvSave dst kw r, s1) added) ->
     In (EvUnlink dst None, fs w) added) /\
    (removable (fs w) dst = false ->
     content (fs (snd run)) dst = None \/
     exists e s1, In (EvUnlink dst (Some e), s1) added).
Proof.
  intros Hd Hold.
  destruct (@convert_one_run C src dst true quality subsampling optimize
              progressive icc_mode w Hd) as (r & s' & added & E & R).
  cbv zeta. rewrite E. cbn [fst snd fs log]. intros Er. subst r.
  exists added. split; [reflexivity|].
  assert (K : forall s0 tail, cleanup_run dst s0 s' tail ->
                removable s0 dst = removable (fs w) dst ->
                incl tail added ->
                (removable (fs w) dst = true -> content s' dst = None) /\
                (removable (fs w) dst = false ->
                 content s' dst = None \/
                 exists e s1, In (EvUnlink dst (Some e), s1) added)).
  { intros s0 tail Rc Hr Hin.
    destruct (cleanup_run_removes Rc) as [Hn | (Hf & _ & e & He)].
    - split; [intros _; exact Hn | intros _; now left].
    - split; [intros Ht; congruence|].
      intros _. right. exists e, s0. now apply Hin. }
  assert (Q : forall (P : Prop) kw r (s1 : FS) (l : list (Event * FS)),
             In (EvSave dst kw r, s1) l ->
             (forall kw r s1, ~ In (EvSave dst kw r, s1) l) -> P).
  { intros P kw r s1 l Hin Hno. exfalso. exact (Hno kw r s1 Hin). }
  inversion R; subst.
  - (* decode *)
    match goal with Rc : cleanup_run _ _ _ _ |- _ =>
      destruct (K _ _ Rc eq_refl) as [K1 K2];
        [intros x Hx; now do 2 right|] end.
    split; [exact K1|]. split; [|exact K2].
    intros Hr _.
    match goal with Rc : cleanup_run _ _ _ _ |- _ => inversion Rc; subst end;
      try congruence.
    do 3 right. now left.
  - (* encode *)
    match goal with Rc : cleanup_run _ _ _ _ |- _ =>
      destruct (K _ _ Rc eq_refl) as [K1 K2];
        [intros x Hx; now do 3 right|] end.
    split; [exact K1|]. split; [|exact K2].
    intros _. eapply Q. do 2 right. left. reflexivity.
  - match goal with V : verify_run _ _ _ _ _ _ |- _ => inversion V; subst end.
    + match goal with Rc : cleanup_run _ _ _ _ |- _ =>
        destruct (K _ _ Rc eq_refl) as [K1 K2];
          [intros x Hx; now do 4 right|] end.
      split; [exact K1|]. split; [|exact K2].
      intros _. eapply Q. do 2 right. left. reflexivity.
    + match goal with Rc : cleanup_run _ _ _ _ |- _ =>
        destruct (K _ _ Rc eq_refl) as [K1 K2];
          [intros x Hx; now do 5 right|] end.
      split; [exact K1|]. split; [|exact K2].
      intros _. eapply Q. do 2 right. left. reflexivity.
Qed.

Lemma failure_cleanup_removes_existing_destination_witness :
  let w := Fixture.start (Fixture.disk [x00; x10] (Some [x07]) (fun _ => false)) in
  let run := _convert_one (Fixture.codec Fixture.save_ok) Fixture.a_heic true
                          92 2 true true "srgb" w in
  content (fs w) Fixture.a_jpg = Some [x07] /\
  fst run = Return (failed, "/photos/a.heic",
                    "UnidentifiedImageError('cannot identify image file')") /\
  content (fs (snd run)) Fixture.a_jpg = None.
Proof.
  split; [reflexivity|]. split; [reflexivity|].
  destruct (@failure_cleanup_removes_existing_destination
              (Fixture.codec Fixture.save_ok) Fixture.a_heic Fixture.a_jpg [x07]
              92 2 true true "srgb"
              (Fixture.start (Fixture.disk [x00; x10] (Some [x07]) (fun _ => false)))
              "/photos/a.heic"
              "UnidentifiedImageError('cannot identify image file')"
              eq_refl eq_refl eq_refl)
    as (added & _ & Hgone & _).
  apply Hgone. reflexivity.
Defined.

(** ** C7: a source that cannot be deleted *)



(** ** C6: a profile transform that fails *)

Lemma convert_to_srgb_fallback (C : Codec) (im : image C) (icc : bytes)
    (sp : profile C) (sb : bytes) (e : exc) :
  HAVE_CMS C = true ->
  createProfile C "sRGB" = Return sp ->
  profile_tobytes C sp = Return sb ->
  truthy (Some icc) = true ->
  transform_error C im icc sp = Some e ->
  isinstance e [Exception] = true ->
  exists im', _convert_to_srgb C im (Some icc) = Return (im', Some icc).
Proof.
  intros Hc Hp Hb Ht He Hx. unfold _convert_to_srgb, transform_error in *.
  rewrite Hc, Hp, Hb, Ht. cbn [negb].
  destruct (ImageCmsProfile C icc) as [src_prof|e0].
  - destruct (if negb (String.eqb (mode C im) "RGB")
              then convert C im "RGB" else Return im) as [im1|e1].
    + destruct (profileToProfile C im1 src_prof sp) as [im2|e2]; [discriminate|].
      injection He as ->. rewrite Hx. now exists im1.
    + injection He as ->. rewrite Hx. now exists im.
  - injection He as ->. rewrite Hx. now exists im.
Qed.

(** C6.  In mode "srgb", for a source that decodes and carries a profile
    [icc]: when the standard profile is available and the transform to it
    raises an error, [_convert_to_srgb] returns the source profile, the
    worker goes on to [save] with [icc_profile] set to [icc] itself, and
    if that [save] returns and leaves a file of non-zero size the outcome
    is Converted. *)
Theorem profile_transform_failure_keeps_source_profile
    (C : Codec) (src dst : Path) (overwrite : bool)
    (quality subsampling : Z) (optimize progressive : bool) (w : World)
    (im0 im1 im2 : image C) (exif icc : bytes)
    (sp : profile C) (sb : bytes) (e : exc) :
  with_suffix src ".jpg" = Return dst ->
  fs_has (fs w) dst && negb overwrite = false ->
  Image_open C (content (fs w) src) = Return im0 ->
  exif_transpose C im0 = Return im1 ->
  getexif_tobytes C im1 = Return exif ->
  info_icc_profile C im1 = Some icc ->
  truthy (Some icc) = true ->
  _exif_orient_and_flatten C im1 ALPHA_BG = Return im2 ->
  HAVE_CMS C = true ->
  createProfile C "sRGB" = Return sp ->
  profile_tobytes C sp = Return sb ->
  transform_error C im2 icc sp = Some e ->
  isinstance e [Exception] = true ->
  let run := _convert_one C src overwrite quality subsampling optimize
                          progressive "srgb" w in
  let kw := mkSaveArgs "JPEG" quality subsampling optimize progressive
                       (if truthy (Some exif) then Some exif else None)
                       (Some icc) in
  exists im3,
    _convert_to_srgb C im2 (Some icc) = Return (im3, Some icc) /\
    In (EvSave dst kw (fst (Image_save C im3 kw (content (fs w) dst))), fs w)
       (log (snd run)) /\
    (forall b, Image_save C im3 kw (content (fs w) dst) = (None, Some b) ->
               (0 < List.length b)%nat ->
               exists m, fst run = Return (converted, path_str src, m)).
Proof.
  intros Hd Hsk Ho Ht Hx Hi Hty Hf Hc Hp Hb He Hex.
  destruct (@convert_to_srgb_fallback C im2 icc sp sb e Hc Hp Hb Hty He Hex)
    as (im3 & Hs).
  cbv zeta. exists im3. split; [exact Hs|].
  unfold _convert_one, bind, lift, path_exists. rewrite Hd. cbv beta iota.
  rewrite Hsk. unfold try_except, try_body, bind.
  unfold with_block, bind, lift, open_image, _save_jpeg, save_image, ret.
  cbn [fs log]. rewrite Ho, Ht, Hx, Hf, Hi. cbn [String.eqb Ascii.eqb Bool.eqb].
  rewrite Hs. cbn [fst snd fs log]. rewrite Hty.
  assert (Hidem : forall o : option bytes,
             (if truthy (if truthy o then o else None)
              then (if truthy o then o else None) else None)
             = (if truthy o then o else None))
    by (intros [[|]|]; reflexivity).
  rewrite Hidem.
  destruct (Image_save C im3 _ (content (fs w) dst)) as [raised after] eqn:Es.
  cbn [fst snd fs log]. split.
  - destruct raised as [e'|].
    + destruct (isinstance e' _).
      * match goal with |- context [cleanup dst ?W] =>
          destruct (cleanup_spec dst W) as (s' & tail & E & _) end.
        rewrite E. cbn [snd fs log ret]. rewrite !in_app_iff. simpl. intuition.
      * cbn [snd fs log]. rewrite !in_app_iff. simpl. intuition.
    + match goal with |- context [verify_then_delete src dst (mkWorld ?s ?l)] =>
        destruct (verify_then_delete_spec src dst s l) as (o & s' & tail & E & _) end.
      rewrite E. cbn [snd fs log]. rewrite !in_app_iff. simpl. intuition.
  - intros b Eb Hlen. injection Eb as -> ->.
    match goal with |- context [verify_then_delete src dst (mkWorld ?s ?l)] =>
      destruct (verify_then_delete_spec src dst s l) as (o & s' & tail & E & V) end.
    rewrite E. cbn [fst].
    inversion V; subst;
      repeat match goal with
             | Hc' : content (fs_set _ dst _) dst = _ |- _ =>
                 rewrite fs_set_same in Hc'; try discriminate Hc';
                 injection Hc' as ?
             end;
      subst; try (simpl in Hlen; lia); eexists; reflexivity.
Qed.

Lemma profile_transform_failure_keeps_source_profile_witness :
  let C := Fixture.codec Fixture.save_ok in
  let w := Fixture.start (Fixture.disk [x03; x10] None (fun _ => false)) in
  let run := _convert_one C Fixture.a_heic false 92 2 true true "srgb" w in
  let kw := mkSaveArgs "JPEG" 92 2 true true None (Some [x00; x58]) in
  exists im3,
    _convert_to_srgb C (Fixture.mkPic "RGB" (Some [x00; x58]) [x10])
                     (Some [x00; x58])
      = Return (im3, Some [x00; x58]) /\
    In (EvSave Fixture.a_jpg kw
               (fst (Image_save C im3 kw (content (fs w) Fixture.a_jpg))), fs w)
       (log (snd run)) /\
    (forall b, Image_save C im3 kw (content (fs w) Fixture.a_jpg) = (None, Some b) ->
               (0 < List.length b)%nat ->
               exists m, fst run = Return (converted, path_str Fixture.a_heic, m)).
Proof.
  apply (@profile_transform_failure_keeps_source_profile
           (Fixture.codec Fixture.save_ok) Fixture.a_heic Fixture.a_jpg false
           92 2 true true
           (Fixture.start (Fixture.disk [x03; x10] None (fun _ => false)))
           (Fixture.mkPic "RGB" (Some [x00; x58]) [x10])
           (Fixture.mkPic "RGB" (Some [x00; x58]) [x10])
           (Fixture.mkPic "RGB" (Some [x00; x58]) [x10])
           [] [x00; x58] Fixture.srgb Fixture.srgb
           (mkExc PyCMSError "cannot open profile from string"));
    reflexivity.
Defined.

(** ** C10: the quality handed to the workers *)

(** C10.  Whatever quality the command line gives, each submitted job
    carries it clamped, [max(1, min(100, q))], which lies between 1 and
    100, and the worker is run on that value; there is one job per
    discovered file. *)
Theorem submitted_quality_is_clamped (args : Args) (heif_files : list Path) :
  Forall (fun j =>
            job_quality j = Z.max 1 (Z.min 100 (arg_quality args)) /\
            (1 <= job_quality j <= 100)%Z /\
            forall C,
              run_job C j =
              _convert_one C (job_src j) (arg_overwrite args)
                           (Z.max 1 (Z.min 100 (arg_quality args)))
                           DEFAULT_SUBSAMPLING DEFAULT_OPTIMIZE DEFAULT_PROGRESSIVE
                           (arg_icc args))
         (submit_all args heif_files) /\
  map job_src (submit_all args heif_files) = heif_files.
Proof.
  unfold submit_all. split.
  - apply Forall_forall. intros j Hj. apply in_map_iff in Hj as (p & <- & _).
    cbn [job_quality]. split; [reflexivity|]. split; [lia|].
    intros C. reflexivity.
  - rewrite map_map. cbn [job_src]. apply map_id.
Qed.

(** ** C2: what the final count accounts for *)


Lemma drain_counts (cs : list (Outcome * bool)) (t : Tally) :
  exists t',
    drain (returned cs) t = Return t' /\
    ok t' = ok t + count_status converted (drained cs) /\
    n_skipped t' = n_skipped t + count_status skipped (drained cs) /\
    n_failed t' = n_failed t + count_status failed (drained cs).
Proof.
  revert t. induction cs as [|[o stop] cs IH]; intros t.
  - exists t. cbn. repeat split; lia.
  - cbn [returned map drain fst snd drained].
    destruct stop.
    + exists (count o t). split; [reflexivity|].
      destruct o as [[[] src] info]; cbn; repeat split; lia.
    + destruct (IH (count o t)) as (t' & E & H1 & H2 & H3).
      exists t'. split; [exact E|].
      unfold count_status in *. cbn [filter].
      destruct o as [[[] src] info]; cbn in *; repeat split; lia.
Qed.





(** ** C8: discovery and the case of the extension *)

(** A file passed on its own is matched on its lowered suffix, in any
    spelling. *)
Lemma file_argument_is_discovered (t : Tree) (p : Path) :
  is_dir t p = false ->
  is_file t p = true ->
  str_in (Str.lower (suffix p)) HEIF_EXTS = true ->
  find_heif_files t [p] = [p].
Proof.
  intros Hd Hf Hs. unfold find_heif_files. cbn [flat_map].
  rewrite Hd, Hf, Hs. reflexivity.
Qed.

(** C8, on a POSIX tree.  [IMG_1.HeiC] lies under the traversed root and
    its extension is a recognised one when compared without case, and yet
    the scan of the root returns the two other images only: the patterns
    the scan globs with are the extension in lower case and in upper
    case.  Passed as an argument of its own, the same file is
    discovered. *)
Theorem mixed_case_extension_is_not_discovered :
  is_dir Album.tree Album.photos = true /\
  In Album.mixed_case (walk Album.tree Album.photos) /\
  str_in (Str.lower (suffix Album.mixed_case)) HEIF_EXTS = true /\
  find_heif_files Album.tree [Album.photos]
    = [Album.lower_case; Album.upper_case] /\
  ~ In Album.mixed_case (find_heif_files Album.tree [Album.photos]) /\
  find_heif_files Album.tree [Album.mixed_case] = [Album.mixed_case].
Proof.
  split; [reflexivity|]. split; [now left|]. split; [reflexivity|].
  split; [reflexivity|]. split.
  - intros [H | [H | []]]; discriminate H.
  - apply file_argument_is_discovered; reflexivity.
Qed.

(** * Further properties of the worker *)

Lemma cleanup_run_frame dst s s' tail p :
  cleanup_run dst s s' tail ->
  Path_eqb p dst = false ->
  content s' p = content s p.
Proof.
  intros R Hp; inversion R; subst; try reflexivity.
  simpl. now rewrite Hp.
Qed.

Lemma cleanup_run_removable dst s s' tail p :
  cleanup_run dst s s' tail -> removable s' p = removable s p.
Proof. intros R; inversion R; subst; reflexivity. Qed.

(** X1.  A call of the worker changes the file system at the source and
    at the destination only: every other path holds afterwards what it
    held before, and no path changes as to whether it can be removed. *)
Theorem worker_touches_source_and_destination_only
    (C : Codec) (src dst : Path) (overwrite : bool)
    (quality subsampling : Z) (optimize progressive : bool) (icc_mode : string)
    (w : World) :
  with_suffix src ".jpg" = Return dst ->
  let w' := snd (_convert_one C src overwrite quality subsampling optimize
                              progressive icc_mode w) in
  (forall p, Path_eqb p src = false -> Path_eqb p dst = false ->
             content (fs w') p = content (fs w) p) /\
  (forall p, removable (fs w') p = removable (fs w) p).
Proof.
  intros Hd.
  destruct (@convert_one_run C src dst overwrite quality subsampling optimize
              progressive icc_mode w Hd) as (r & s' & added & E & R).
  cbv zeta. rewrite E. cbn [snd fs].
  split.
  - intros p Hs Hp.
    inversion R; subst; invert_runs; simpl; rewrite ?Hs, ?Hp; reflexivity.
  - intros p. inversion R; subst; invert_runs; reflexivity.
Qed.

Lemma worker_touches_source_and_destination_only_witness :
  let other := mkPath "/photos" "b.heic" in
  let s0 := fs_set (Fixture.disk [x01; x10] None (fun _ => false)) other (Some [x02]) in
  let w' := snd (_convert_one (Fixture.codec Fixture.save_ok) Fixture.a_heic false
                              92 2 true true "srgb" (Fixture.start s0)) in
  content (fs w') other = Some [x02] /\ content (fs w') Fixture.a_heic = None.
Proof.
  split; [|reflexivity].
  apply (proj1 (@worker_touches_source_and_destination_only
                  (Fixture.codec Fixture.save_ok) Fixture.a_heic Fixture.a_jpg false
                  92 2 true true "srgb"
                  (Fixture.start
                     (fs_set (Fixture.disk [x01; x10] None (fun _ => false))
                             (mkPath "/photos" "b.heic") (Some [x02])))
                  eq_refl));
    reflexivity.
Defined.

(** What the worker does when the destination is there and [overwrite]
    is not set. *)
Lemma skip_run (C : Codec) (src dst : Path)
    (quality subsampling : Z) (optimize progressive : bool) (icc_mode : string)
    (w : World) :
  with_suffix src ".jpg" = Return dst ->
  fs_has (fs w) dst = true ->
  _convert_one C src false quality subsampling optimize progressive icc_mode w
  = (Return (skipped, path_str src, "destination exists"),
     mkWorld (fs w) (log w ++ [(EvExists dst true, fs w)])%list).
Proof.
  intros Hd Hex. unfold _convert_one, bind, lift, path_exists, ret.
  rewrite Hd. cbn [fs log]. rewrite Hex. reflexivity.
Qed.

(** X2.  The worker returns Skipped exactly when the destination exists
    and [overwrite] is not set: with [overwrite] set, or with no file at
    the destination, it never skips. *)
Theorem skipped_iff_destination_exists_and_no_overwrite
    (C : Codec) (src dst : Path) (overwrite : bool)
    (quality subsampling : Z) (optimize progressive : bool) (icc_mode : string)
    (w : World) :
  with_suffix src ".jpg" = Return dst ->
  let r := fst (_convert_one C src overwrite quality subsampling optimize
                             progressive icc_mode w) in
  (exists s m, r = Return (skipped, s, m)) <->
  (fs_has (fs w) dst = true /\ overwrite = false).
Proof.
  intros Hd. cbv zeta. split.
  - intros (s & m & Er).
    destruct (@convert_one_run C src dst overwrite quality subsampling optimize
                progressive icc_mode w Hd) as (r & s' & added & E & R).
    rewrite E in Er. cbn [fst] in Er. subst r.
    inversion R; subst; invert_runs.
    split; [|reflexivity]. unfold fs_has.
    match goal with Hc : content (fs w) dst = Some _ |- _ => now rewrite Hc end.
  - intros [Hex ->]. rewrite (@skip_run C src dst quality subsampling optimize progressive
               icc_mode w Hd Hex).
    now exists (path_str src), "destination exists".
Qed.

Lemma skipped_iff_destination_exists_and_no_overwrite_witness :
  ~ exists s m,
      fst (_convert_one (Fixture.codec Fixture.save_ok) Fixture.a_heic true
                        92 2 true true "srgb"
                        (Fixture.start
                           (Fixture.disk [x01; x10] (Some [x07]) (fun _ => false))))
      = Return (skipped, s, m).
Proof.
  intros H.
  apply (proj1 (@skipped_iff_destination_exists_and_no_overwrite
                  (Fixture.codec Fixture.save_ok) Fixture.a_heic Fixture.a_jpg true
                  92 2 true true "srgb"
                  (Fixture.start
                     (Fixture.disk [x01; x10] (Some [x07]) (fun _ => false)))
                  eq_refl)) in H.
  destruct H as [_ H]. discriminate H.
Defined.

Lemma append_eq_self (s t : string) : s ++ t = s -> t = "".
Proof.
  induction s as [|c s IH]; simpl; intros H; [exact H|].
  injection H as H. now apply IH.
Qed.

(** X3.  For a source with a recognised extension: when the worker
    returns Converted with the bare destination as its message (no
    warning), the source is gone from the file system and the destination
    holds a file of non-zero size. *)
Theorem clean_conversion_replaces_source
    (C : Codec) (src : Path) (overwrite : bool)
    (quality subsampling : Z) (optimize progressive : bool) (icc_mode : string)
    (w : World) :
  str_in (Str.lower (suffix src)) HEIF_EXTS = true ->
  let run := _convert_one C src overwrite quality subsampling optimize
                          progressive icc_mode w in
  forall dst s,
    with_suffix src ".jpg" = Return dst ->
    fst run = Return (converted, s, path_str dst) ->
    content (fs (snd run)) src = None /\
    exists b, content (fs (snd run)) dst = Some b /\ (0 < List.length b)%nat.
Proof.
  intros H.
  destruct (heif_worker_run C src overwrite quality subsampling optimize
              progressive icc_mode w H)
    as (dst & r & s' & added & Hd & Hne & E & R).
  cbv zeta. rewrite E. cbn [fst snd fs].
  intros dst' s Hd' Er. rewrite Hd in Hd'. injection Hd' as <-. subst r.
  assert (Hne' : Path_eqb dst src = false).
  { destruct (Path_eqb dst src) eqn:Eq; [|reflexivity].
    apply Path_eqb_eq in Eq. subst. now rewrite Path_eqb_refl in Hne. }
  inversion R; subst; invert_runs.
  - split; [apply fs_set_same|].
    exists b. split; [|assumption].
    simpl. rewrite Hne'. rewrite Path_eqb_refl.
    match goal with Hc : content (fs_set _ dst _) dst = Some b |- _ =>
      rewrite fs_set_same in Hc; exact Hc end.
  - exfalso.
    match goal with Hm : _ ++ _ = path_str dst |- _ =>
      apply append_eq_self in Hm; discriminate Hm end.
Qed.

Lemma clean_conversion_replaces_source_witness :
  let run := _convert_one (Fixture.codec Fixture.save_ok) Fixture.a_heic false
                          92 2 true true "srgb"
                          (Fixture.start
                             (Fixture.disk [x02; x10] None (fun _ => false))) in
  content (fs (snd run)) Fixture.a_heic = None /\
  exists b, content (fs (snd run)) Fixture.a_jpg = Some b /\ (0 < List.length b)%nat.
Proof.
  apply (@clean_conversion_replaces_source
           (Fixture.codec Fixture.save_ok) Fixture.a_heic false
           92 2 true true "srgb"
           (Fixture.start (Fixture.disk [x02; x10] None (fun _ => false)))
           eq_refl Fixture.a_jpg "/photos/a.heic" eq_refl eq_refl).
Defined.

(** X4.  For a source with a recognised extension: whatever the worker
    returns or raises, the source holds afterwards the bytes it held
    before, unless the outcome is Converted with the bare destination as
    its message.  A Failed, Skipped or raising call, and a Converted one
    that carries the warning, all leave the source as it was. *)
Theorem source_kept_unless_cleanly_converted
    (C : Codec) (src : Path) (overwrite : bool)
    (quality subsampling : Z) (optimize progressive : bool) (icc_mode : string)
    (w : World) :
  str_in (Str.lower (suffix src)) HEIF_EXTS = true ->
  let run := _convert_one C src overwrite quality subsampling optimize
                          progressive icc_mode w in
  content (fs (snd run)) src = content (fs w) src \/
  exists dst,
    with_suffix src ".jpg" = Return dst /\
    fst run = Return (converted, path_str src, path_str dst).
Proof.
  intros H.
  destruct (heif_worker_run C src overwrite quality subsampling optimize
              progressive icc_mode w H)
    as (dst & r & s' & added & Hd & Hne & E & R).
  cbv zeta. rewrite E. cbn [fst snd fs].
  inversion R; subst; invert_runs;
    try (left; reflexivity);
    try (left; simpl; rewrite ?Hne; reflexivity).
  right. now exists dst.
Qed.

Lemma source_kept_unless_cleanly_converted_witness :
  let w := Fixture.start (Fixture.disk [x01; x10] None (fun _ => false)) in
  let run := _convert_one (Fixture.codec Fixture.save_partial) Fixture.a_heic false
                          92 2 true true "srgb" w in
  fst run = Return (failed, "/photos/a.heic", "OSError('No space left on device')") /\
  content (fs (snd run)) Fixture.a_heic = Some [x01; x10].
Proof.
  split; [reflexivity|].
  destruct (@source_kept_unless_cleanly_converted
              (Fixture.codec Fixture.save_partial) Fixture.a_heic false
              92 2 true true "srgb"
              (Fixture.start (Fixture.disk [x01; x10] None (fun _ => false)))
              eq_refl) as [Hkept | (dst & _ & Hconv)].
  - exact Hkept.
  - discriminate Hconv.
Defined.

(** X5.  For a source with a recognised extension: once the encoder has
    returned, the outcome is decided by what it left at the destination.
    Either the worker returns Converted, or it returns Failed with
    "empty or missing output"; in the second case it has made no [unlink]
    of the source at all, and the source holds the bytes it held. *)
Theorem returned_encode_is_converted_or_empty_output
    (C : Codec) (src : Path) (overwrite : bool)
    (quality subsampling : Z) (optimize progressive : bool) (icc_mode : string)
    (w : World) :
  str_in (Str.lower (suffix src)) HEIF_EXTS = true ->
  let run := _convert_one C src overwrite quality subsampling optimize
                          progressive icc_mode w in
  exists added,
    log (snd run) = (log w ++ added)%list /\
    forall p kw s0,
      In (EvSave p kw None, s0) added ->
      (exists m, fst run = Return (converted, path_str src, m)) \/
      (fst run = Return (failed, path_str src, "empty or missing output") /\
       (forall r s1, ~ In (EvUnlink src r, s1) added) /\
       content (fs (snd run)) src = content (fs w) src).
Proof.
  intros H.
  destruct (heif_worker_run C src overwrite quality subsampling optimize
              progressive icc_mode w H)
    as (dst & r & s' & added & Hd & Hne & E & R).
  cbv zeta. rewrite E. cbn [fst snd fs log].
  assert (Hds : dst <> src)
    by (intros ->; rewrite Path_eqb_refl in Hne; discriminate).
  exists added. split; [reflexivity|].
  intros p kw0 s0 Hin.
  inversion R; subst; invert_runs; simpl in Hin;
    repeat (destruct Hin as [Hin | Hin]; [try discriminate Hin|]);
    try contradiction;
    try (left; eexists; reflexivity).
  all: right; split; [reflexivity|]; split;
    [ intros r s1 Hu; simpl in Hu;
      repeat (destruct Hu as [Hu | Hu]; [try discriminate Hu|]);
      try contradiction; injection Hu as Hu _; congruence
    | simpl; rewrite ?Hne; reflexivity ].
Qed.

Lemma returned_encode_is_converted_or_empty_output_witness :
  let w := Fixture.start (Fixture.disk [x01; x10] None (fun _ => false)) in
  let run := _convert_one (Fixture.codec Fixture.save_empty) Fixture.a_heic false
                          92 2 true true "none" w in
  fst run = Return (failed, "/photos/a.heic", "empty or missing output") /\
  content (fs (snd run)) Fixture.a_heic = Some [x01; x10].
Proof.
  destruct (@returned_encode_is_converted_or_empty_output
              (Fixture.codec Fixture.save_empty) Fixture.a_heic false
              92 2 true true "none"
              (Fixture.start (Fixture.disk [x01; x10] None (fun _ => false)))
              eq_refl) as (added & Hlog & Hsave).
  vm_compute in Hlog. subst added.
  destruct (Hsave Fixture.a_jpg
                  (mkSaveArgs "JPEG" 92 2 true true None None)
                  (Fixture.disk [x01; x10] None (fun _ => false)))
    as [(m & Hm) | (Hf & _ & Hkept)].
  - do 2 right. left. reflexivity.
  - discriminate Hm.
  - split; [exact Hf | exact Hkept].
Defined.

(** X6.  For a source with a recognised extension and [overwrite] not
    set: after a call that returned Converted, with or without the
    warning, a second call on the same source returns Skipped with
    "destination exists" and leaves the file system as the first call
    left it. *)
Theorem rerun_after_conversion_is_skipped
    (C : Codec) (src : Path)
    (quality subsampling : Z) (optimize progressive : bool) (icc_mode : string)
    (w : World) (s m : string) :
  str_in (Str.lower (suffix src)) HEIF_EXTS = true ->
  let run := _convert_one C src false quality subsampling optimize
                          progressive icc_mode in
  fst (run w) = Return (converted, s, m) ->
  fst (run (snd (run w))) = Return (skipped, path_str src, "destination exists") /\
  fs (snd (run (snd (run w)))) = fs (snd (run w)).
Proof.
  intros H.
  destruct (heif_worker_run C src false quality subsampling optimize
              progressive icc_mode w H)
    as (dst & r & s' & added & Hd & Hne & E & R).
  cbv zeta. rewrite E. cbn [fst snd]. intros Er. subst r.
  assert (Hne' : Path_eqb dst src = false).
  { destruct (Path_eqb dst src) eqn:Eq; [|reflexivity].
    apply Path_eqb_eq in Eq. subst. now rewrite Path_eqb_refl in Hne. }
  assert (Hex : fs_has s' dst = true).
  { unfold fs_has.
    inversion R; subst; invert_runs;
      match goal with Hc : content (fs_set _ dst _) dst = Some _ |- _ =>
        rewrite fs_set_same in Hc; subst end;
      simpl; rewrite ?Hne', Path_eqb_refl; reflexivity. }
  rewrite (@skip_run C src dst quality subsampling optimize progressive icc_mode
             (mkWorld s' (log w ++ added)%list) Hd Hex).
  split; reflexivity.
Qed.

Lemma rerun_after_conversion_is_skipped_witness :
  let run := _convert_one (Fixture.codec Fixture.save_ok) Fixture.a_heic false
                          92 2 true true "srgb" in
  let w := Fixture.start (Fixture.disk [x01; x10] None (fun _ => false)) in
  fst (run w) = Return (converted, "/photos/a.heic", "/photos/a.jpg") /\
  fst (run (snd (run w))) = Return (skipped, "/photos/a.heic", "destination exists") /\
  fs (snd (run (snd (run w)))) = fs (snd (run w)).
Proof.
  split; [reflexivity|].
  apply (@rerun_after_conversion_is_skipped
           (Fixture.codec Fixture.save_ok) Fixture.a_heic 92 2 true true "srgb"
           (Fixture.start (Fixture.disk [x01; x10] None (fun _ => false)))
           "/photos/a.heic" "/photos/a.jpg" eq_refl eq_refl).
Defined.

(** The calls the body of the [with] adds to the log: the [open], then at
    most one [save], on the destination, with well-formed arguments. *)
Lemma with_block_calls (C : Codec) (src dst : Path)
    (quality subsampling : Z) (optimize progressive : bool) (icc_mode : string)
    (w : World) :
  exists tail,
    log (snd (with_block C src dst quality subsampling optimize progressive
                         icc_mode w)) = (log w ++ tail)%list /\
    (tail = [(EvOpen src, fs w)] \/
     exists kw r,
       tail = [(EvOpen src, fs w); (EvSave dst kw r, fs w)] /\
       jpeg_args quality subsampling optimize progressive kw).
Proof.
  assert (Hargs : forall exif icc : option bytes,
             jpeg_args quality subsampling optimize progressive
               (mkSaveArgs "JPEG" quality subsampling optimize progressive
                           (if truthy exif then exif else None)
                           (if truthy icc then icc else None))).
  { intros exif icc. unfold jpeg_args. cbn.
    repeat split; try reflexivity.
    - destruct exif as [[|]|]; discriminate.
    - destruct icc as [[|]|]; discriminate. }
  unfold with_block, bind, lift, open_image, _save_jpeg, save_image, ret.
  cbn [fs log].
  destruct (Image_open C (content (fs w) src)) as [im0|e];
    [|eexists; split; [reflexivity | now left]].
  destruct (exif_transpose C im0) as [im1|e];
    [|eexists; split; [reflexivity | now left]].
  destruct (getexif_tobytes C im1) as [exif|e];
    [|eexists; split; [reflexivity | now left]].
  destruct (_exif_orient_and_flatten C im1 ALPHA_BG) as [im2|e];
    [|eexists; split; [reflexivity | now left]].
  destruct (String.eqb icc_mode "srgb").
  - destruct (_convert_to_srgb C im2 (info_icc_profile C im1)) as [[im3 icc]|e];
      [|eexists; split; [reflexivity | now left]].
    cbn [fst snd fs log].
    destruct (Image_save C im3 _ _) as [raised after]. cbn [snd fs log].
    rewrite <- app_assoc. eexists. split; [reflexivity|].
    right. do 2 eexists. split; [reflexivity|]. apply Hargs.
  - destruct (String.eqb icc_mode "keep"); cbn [fst snd fs log];
      destruct (Image_save C im2 _ _) as [raised after]; cbn [snd fs log];
      rewrite <- app_assoc; eexists; (split; [reflexivity|]);
      right; do 2 eexists; (split; [reflexivity|]); apply Hargs.
Qed.

(** What the worker adds to the log after the body of the [with]: no
    call of [save]. *)
Lemma convert_one_after_block (C : Codec) (src dst : Path) (overwrite : bool)
    (quality subsampling : Z) (optimize progressive : bool) (icc_mode : string)
    (w : World) :
  with_suffix src ".jpg" = Return dst ->
  fs_has (fs w) dst && negb overwrite = false ->
  exists rest,
    log (snd (_convert_one C src overwrite quality subsampling optimize
                           progressive icc_mode w))
    = (log (snd (with_block C src dst quality subsampling optimize progressive
                   icc_mode
                   (mkWorld (fs w)
                      (log w ++ [(EvExists dst (fs_has (fs w) dst), fs w)])%list)))
         ++ rest)%list /\
    forallb (fun es => negb (is_save (fst es))) rest = true.
Proof.
  intros Hd Hsk. unfold _convert_one, bind, lift, path_exists. rewrite Hd.
  cbv beta iota. rewrite Hsk. unfold try_except, try_body, bind.
  destruct (with_block _ _ _ _ _ _ _ _ _) as [[[]|e] [s1 l1]]; cbn [snd log].
  - destruct (verify_then_delete_spec src dst s1 l1) as (o & s' & tail & E & V).
    rewrite E. cbn [snd log]. exists tail. split; [reflexivity|].
    inversion V; subst; invert_runs; reflexivity.
  - destruct (isinstance e _).
    + destruct (cleanup_spec dst (mkWorld s1 l1)) as (s' & tail & E & K).
      rewrite E. cbn [snd log ret]. exists tail. split; [reflexivity|].
      inversion K; subst; reflexivity.
    + exists []. split; [now rewrite app_nil_r | reflexivity].
Qed.

(** The calls of [Image.save] in a call of the worker. *)
Lemma worker_save_calls
    (C : Codec) (src dst : Path) (overwrite : bool)
    (quality subsampling : Z) (optimize progressive : bool) (icc_mode : string)
    (w : World) :
  with_suffix src ".jpg" = Return dst ->
  exists added,
    log (snd (_convert_one C src overwrite quality subsampling optimize
                           progressive icc_mode w)) = (log w ++ added)%list /\
    List.length (filter (fun es => is_save (fst es)) added) <= 1 /\
    forall p kw r s0,
      In (EvSave p kw r, s0) added ->
      p = dst /\ s0 = fs w /\
      jpeg_args quality subsampling optimize progressive kw.
Proof.
  intros Hd.
  destruct (fs_has (fs w) dst && negb overwrite) eqn:Hsk.
  - apply andb_true_iff in Hsk as [Hex Hov].
    destruct overwrite; [discriminate|].
    rewrite (@skip_run C src dst quality subsampling optimize progressive
               icc_mode w Hd Hex). cbn [snd log].
    eexists. split; [reflexivity|]. split; [cbn; lia|].
    intros p kw r s0 [Hin | []]. discriminate Hin.
  - destruct (@convert_one_after_block C src dst overwrite quality subsampling
                optimize progressive icc_mode w Hd Hsk) as (rest & E & Hrest).
    destruct (with_block_calls C src dst quality subsampling optimize progressive
                icc_mode
                (mkWorld (fs w)
                   (log w ++ [(EvExists dst (fs_has (fs w) dst), fs w)])%list))
      as (tail & Et & Htail).
    rewrite E, Et. cbn [fs log]. rewrite <- !app_assoc.
    eexists. split; [reflexivity|].
    assert (Hnone : filter (fun es : Event * FS => is_save (fst es)) rest = []).
    { clear - Hrest. induction rest as [|x rest IH]; [reflexivity|].
      cbn in *. apply andb_true_iff in Hrest as [Hx Hr].
      destruct (is_save (fst x)); [discriminate|]. now apply IH. }
    assert (Hrest' : forall p kw r s0, ~ In (EvSave p kw r, s0) rest).
    { intros p kw r s0 Hin.
      rewrite forallb_forall in Hrest. specialize (Hrest _ Hin). discriminate. }
    destruct Htail as [-> | (kw & r & -> & Hkw)].
    + split.
      * cbn. rewrite Hnone. cbn. lia.
      * intros p kw r s0 Hin. cbn in Hin.
        destruct Hin as [Hin | [Hin | Hin]]; try discriminate Hin.
        now apply Hrest' in Hin.
    + split.
      * cbn. rewrite Hnone. cbn. lia.
      * intros p kw' r' s0 Hin. cbn in Hin.
        destruct Hin as [Hin | [Hin | [Hin | Hin]]]; try discriminate Hin.
        -- injection Hin as <- <- <- <-.
           split; [reflexivity|]. split; [reflexivity | exact Hkw].
        -- now apply Hrest' in Hin.
Qed.

(** X7.  Whatever the codec and the file system: a call of the worker
    makes at most one call of [Image.save]; it is made on the destination,
    on the file system the worker started on, in the JPEG format, with the
    quality, subsampling, optimize and progressive settings the worker was
    given; its EXIF block and its profile are left out when they would be
    empty. *)
Theorem worker_saves_once_with_given_settings
    (C : Codec) (src dst : Path) (overwrite : bool)
    (quality subsampling : Z) (optimize progressive : bool) (icc_mode : string)
    (w : World) :
  with_suffix src ".jpg" = Return dst ->
  exists added,
    log (snd (_convert_one C src overwrite quality subsampling optimize
                           progressive icc_mode w)) = (log w ++ added)%list /\
    List.length (filter (fun es => is_save (fst es)) added) <= 1 /\
    forall p kw r s0,
      In (EvSave p kw r, s0) added ->
      p = dst /\ s0 = fs w /\
      jpeg_args quality subsampling optimize progressive kw.
Proof.
  intros Hd.
  exact (@worker_save_calls C src dst overwrite quality
           subsampling optimize progressive icc_mode w Hd).
Qed.

Lemma worker_saves_once_with_given_settings_witness :
  let w := Fixture.start (Fixture.disk [x01; x10] None (fun _ => false)) in
  exists added,
    log (snd (_convert_one (Fixture.codec Fixture.save_ok) Fixture.a_heic false
                           77 1 false true "none" w)) = (log w ++ added)%list /\
    List.length (filter (fun es => is_save (fst es)) added) <= 1 /\
    forall p kw r s0,
      In (EvSave p kw r, s0) added ->
      p = Fixture.a_jpg /\ s0 = fs w /\ jpeg_args 77 1 false true kw.
Proof.
  apply (@worker_saves_once_with_given_settings
           (Fixture.codec Fixture.save_ok) Fixture.a_heic Fixture.a_jpg false
           77 1 false true "none"
           (Fixture.start (Fixture.disk [x01; x10] None (fun _ => false)))
           eq_refl).
Defined.

(** X8.  From the command line to the encoder: every call of
    [Image.save] made by a job that [main] submitted is made in the JPEG
    format with a quality between 1 and 100, the command-line quality
    clamped, with subsampling 2 and with optimize and progressive set. *)
Theorem submitted_job_saves_with_clamped_quality
    (C : Codec) (args : Args) (heif_files : list Path) (j : Job) (w : World) :
  In j (submit_all args heif_files) ->
  exists added,
    log (snd (run_job C j w)) = (log w ++ added)%list /\
    forall p kw r s0,
      In (EvSave p kw r, s0) added ->
      sa_format kw = "JPEG" /\
      sa_quality kw = Z.max 1 (Z.min 100 (arg_quality args)) /\
      (1 <= sa_quality kw <= 100)%Z /\
      sa_subsampling kw = 2%Z /\
      sa_optimize kw = true /\ sa_progressive kw = true.
Proof.
  intros Hj. unfold submit_all in Hj. apply in_map_iff in Hj as (p0 & <- & _).
  unfold run_job. cbn [job_src job_overwrite job_quality job_subsampling
                       job_optimize job_progressive job_icc_mode].
  destruct (with_suffix p0 ".jpg") as [dst|e] eqn:Hd.
  - destruct (@worker_save_calls C p0 dst
                (arg_overwrite args) (Z.max 1 (Z.min 100 (arg_quality args)))
                DEFAULT_SUBSAMPLING DEFAULT_OPTIMIZE DEFAULT_PROGRESSIVE
                (arg_icc args) w Hd) as (added & E & _ & Hs).
    exists added. split; [exact E|].
    intros p kw r s0 Hin. destruct (Hs p kw r s0 Hin) as (_ & _ & Hk).
    destruct Hk as (Hf & Hq & Hss & Ho & Hp & _ & _).
    rewrite Hq. repeat split; try assumption; lia.
  - exists []. unfold _convert_one, bind, lift. rewrite Hd. cbn [snd].
    split; [now rewrite app_nil_r|]. intros p kw r s0 [].
Qed.

Lemma submitted_job_saves_with_clamped_quality_witness :
  let args := mkArgs 4 250 false "keep" in
  let w := Fixture.start (Fixture.disk [x01; x10] None (fun _ => false)) in
  exists added,
    log (snd (run_job (Fixture.codec Fixture.save_ok)
                      (mkJob Fixture.a_heic false 100 2 true true "keep") w))
      = (log w ++ added)%list /\
    forall p kw r s0,
      In (EvSave p kw r, s0) added ->
      sa_format kw = "JPEG" /\
      sa_quality kw = Z.max 1 (Z.min 100 (arg_quality args)) /\
      (1 <= sa_quality kw <= 100)%Z /\
      sa_subsampling kw = 2%Z /\
      sa_optimize kw = true /\ sa_progressive kw = true.
Proof.
  apply (@submitted_job_saves_with_clamped_quality
           (Fixture.codec Fixture.save_ok) (mkArgs 4 250 false "keep")
           [Fixture.a_heic] (mkJob Fixture.a_heic false 100 2 true true "keep")
           (Fixture.start (Fixture.disk [x01; x10] None (fun _ => false)))).
  left. reflexivity.
Defined.

(** X9.  In the modes other than "srgb", for a source that decodes: the
    image handed to [Image.save] is the flattened image itself, with no
    colour transform; in mode "keep" the profile passed is the source
    profile as it was read (none if the source has none or an empty one);
    in mode "none" no profile is passed. *)
Theorem keep_and_none_modes_save_untransformed
    (C : Codec) (src dst : Path) (overwrite : bool)
    (quality subsampling : Z) (optimize progressive : bool) (icc_mode : string)
    (w : World) (im0 im1 im2 : image C) (exif : bytes) :
  with_suffix src ".jpg" = Return dst ->
  fs_has (fs w) dst && negb overwrite = false ->
  Image_open C (content (fs w) src) = Return im0 ->
  exif_transpose C im0 = Return im1 ->
  getexif_tobytes C im1 = Return exif ->
  _exif_orient_and_flatten C im1 ALPHA_BG = Return im2 ->
  String.eqb icc_mode "srgb" = false ->
  let src_icc := info_icc_profile C im1 in
  let embedded :=
    if String.eqb icc_mode "keep"
    then (if truthy src_icc then src_icc else None) else None in
  let kw := mkSaveArgs "JPEG" quality subsampling optimize progressive
                       (if truthy (Some exif) then Some exif else None)
                       embedded in
  In (EvSave dst kw (fst (Image_save C im2 kw (content (fs w) dst))), fs w)
     (log (snd (_convert_one C src overwrite quality subsampling optimize
                             progressive icc_mode w))).
Proof.
  intros Hd Hsk Ho Ht Hx Hf Hm. cbv zeta.
  destruct (@convert_one_after_block C src dst overwrite quality subsampling
              optimize progressive icc_mode w Hd Hsk) as (rest & E & _).
  rewrite E. apply in_or_app. left. clear E rest.
  unfold with_block, bind, lift, open_image, _save_jpeg, save_image, ret.
  cbn [fs log]. rewrite Ho, Ht, Hx, Hf, Hm.
  assert (Hidem : forall o : option bytes,
             (if truthy (if truthy o then o else None)
              then (if truthy o then o else None) else None)
             = (if truthy o then o else None))
    by (intros [[|]|]; reflexivity).
  destruct (String.eqb icc_mode "keep"); cbn [fst snd fs log];
    rewrite Hidem;
    destruct (Image_save C im2 _ (content (fs w) dst)) as [raised after];
    cbn [fst snd fs log]; rewrite !in_app_iff; simpl; intuition.
Qed.

Lemma keep_and_none_modes_save_untransformed_witness :
  let C := Fixture.codec Fixture.save_ok in
  let w := Fixture.start (Fixture.disk [x02; x10] None (fun _ => false)) in
  let kw := mkSaveArgs "JPEG" 92 2 true true None (Some [x58]) in
  let im := Fixture.mkPic "RGB" (Some [x58]) [x10] in
  In (EvSave Fixture.a_jpg kw (fst (Image_save C im kw (content (fs w) Fixture.a_jpg))),
      fs w)
     (log (snd (_convert_one C Fixture.a_heic false 92 2 true true "keep" w))).
Proof.
  apply (@keep_and_none_modes_save_untransformed
           (Fixture.codec Fixture.save_ok) Fixture.a_heic Fixture.a_jpg false
           92 2 true true "keep"
           (Fixture.start (Fixture.disk [x02; x10] None (fun _ => false)))
           (Fixture.mkPic "RGB" (Some [x58]) [x10])
           (Fixture.mkPic "RGB" (Some [x58]) [x10])
           (Fixture.mkPic "RGB" (Some [x58]) [x10]) []);
    reflexivity.
Defined.

(** X10.  [_convert_to_srgb] never raises an error that is an
    [Exception]: whatever ImageCms does, such an error is swallowed.  The
    profile it returns is the source profile or the bytes of the sRGB
    profile it built, so a source profile that is present is never
    dropped; and when the source has no profile (or an empty one) the
    image comes back as it was given. *)
Theorem convert_to_srgb_swallows_errors_and_keeps_a_profile
    (C : Codec) (im : image C) (src_icc : option bytes) :
  match _convert_to_srgb C im src_icc with
  | Raise e => isinstance e [Exception] = false
  | Return (im', icc') =>
      (icc' = src_icc \/
       exists sp sb, createProfile C "sRGB" = Return sp /\
                     profile_tobytes C sp = Return sb /\ icc' = Some sb) /\
      (truthy src_icc = true -> icc' <> None) /\
      (truthy src_icc = false -> im' = im)
  end.
Proof.
  assert (Hkeep : truthy src_icc = true -> src_icc <> None)
    by (destruct src_icc; [discriminate | discriminate]).
  unfold _convert_to_srgb.
  destruct (HAVE_CMS C); cbn [negb].
  2: { split; [now left|]. split; [exact Hkeep | reflexivity]. }
  destruct (createProfile C "sRGB") as [sp|e] eqn:Hp.
  2: { destruct (isinstance e [Exception]) eqn:He; [|exact He].
       split; [now left|]. split; [exact Hkeep | reflexivity]. }
  destruct (profile_tobytes C sp) as [sb|e] eqn:Hb.
  2: { destruct (isinstance e [Exception]) eqn:He; [|exact He].
       split; [now left|]. split; [exact Hkeep | reflexivity]. }
  destruct (truthy src_icc) eqn:Ht.
  2: { split; [right; now exists sp, sb|]. split; [discriminate | reflexivity]. }
  destruct (ImageCmsProfile C _) as [src_prof|e].
  2: { destruct (isinstance e [Exception]) eqn:He; [|exact He].
       split; [now left|]. split; [exact Hkeep | discriminate]. }
  destruct (if negb (String.eqb (mode C im) "RGB")
            then convert C im "RGB" else Return im) as [im1|e].
  2: { destruct (isinstance e [Exception]) eqn:He; [|exact He].
       split; [now left|]. split; [exact Hkeep | discriminate]. }
  destruct (profileToProfile C im1 src_prof sp) as [im2|e].
  2: { destruct (isinstance e [Exception]) eqn:He; [|exact He].
       split; [now left|]. split; [exact Hkeep | discriminate]. }
  split; [right; now exists sp, sb|]. split; [discriminate | discriminate].
Qed.

Lemma text_app (a b : list ascii) : Str.text (a ++ b) = Str.text a ++ Str.text b.
Proof.
  unfold Str.text. induction a as [|c a IH]; simpl; [reflexivity|].
  now rewrite IH.
Qed.

(** X11.  The destination of a source with a recognised extension: it
    lies in the directory of the source, its name is the name of the
    source with the extension cut off and ".jpg" put in its place, and it
    is never the source itself. *)
Theorem destination_is_source_with_jpg_extension (src : Path) :
  str_in (Str.lower (suffix src)) HEIF_EXTS = true ->
  exists stem,
    name src = stem ++ suffix src /\
    with_suffix src ".jpg" = Return (mkPath (parent src) (stem ++ ".jpg")) /\
    mkPath (parent src) (stem ++ ".jpg") <> src.
Proof.
  intros H.
  assert (Hs : suffix src <> "") by (intros E; rewrite E in H; discriminate H).
  destruct (suffix_tail src Hs) as (i & Hi & Ei).
  destruct (heif_destination src H) as (dst & Hd & Hne).
  exists (Str.text (firstn i (Str.chars (name src)))).
  assert (Hw : with_suffix src ".jpg"
               = Return (mkPath (parent src)
                           (Str.text (firstn i (Str.chars (name src))) ++ ".jpg"))).
  { unfold with_suffix.
    destruct (String.eqb (name src) "") eqn:En.
    { apply String.eqb_eq in En. rewrite En in Hi. simpl in Hi. lia. }
    destruct (String.eqb (suffix src) "") eqn:E0.
    { apply String.eqb_eq in E0. contradiction. }
    rewrite Ei, length_text, length_skipn.
    replace (List.length (Str.chars (name src))
             - (List.length (Str.chars (name src)) - i))%nat with i by lia.
    reflexivity. }
  split; [|split; [exact Hw|]].
  - rewrite Ei, <- text_app, firstn_skipn. symmetry. apply text_chars.
  - rewrite Hw in Hd. injection Hd as <-.
    intros E. rewrite E, Path_eqb_refl in Hne. discriminate Hne.
Qed.

Lemma destination_is_source_with_jpg_extension_witness :
  exists stem,
    name (mkPath "/trip" "IMG.0042.HEIC") = stem ++ ".HEIC" /\
    with_suffix (mkPath "/trip" "IMG.0042.HEIC") ".jpg"
      = Return (mkPath "/trip" (stem ++ ".jpg")).
Proof.
  destruct (destination_is_source_with_jpg_extension
              (mkPath "/trip" "IMG.0042.HEIC") eq_refl) as (stem & Hn & Hw & _).
  exists stem. split; [exact Hn | exact Hw].
Defined.

(** * Discovery *)

Lemma find_heif_files_eq (t : Tree) (paths : list Path) :
  find_heif_files t paths
  = sorted sort_key
      (map snd (fold_left (fun d f => dict_set d (resolved t f) f)
                          (candidates t paths) [])).
Proof. reflexivity. Qed.

(** *** The sort *)

Lemma insert_by_perm {A} (key : A -> string) (x : A) (l : list A) :
  Permutation (insert_by key x l) (x :: l).
Proof.
  induction l as [|y l IH]; cbn; [reflexivity|].
  destruct (Str.ltb (key x) (key y)); [reflexivity|].
  rewrite IH. apply perm_swap.
Qed.

Lemma sorted_perm {A} (key : A -> string) (l : list A) :
  Permutation (sorted key l) l.
Proof.
  unfold sorted.
  assert (G : forall acc,
             Permutation (fold_left (fun acc x => insert_by key x acc) l acc)
                         (l ++ acc)).
  { induction l as [|x l IH]; intros acc; cbn; [reflexivity|].
    rewrite IH, insert_by_perm. symmetry. apply Permutation_middle. }
  rewrite G. now rewrite app_nil_r.
Qed.






(** *** The dictionary *)

Lemma dict_set_keys {V} (d : list (string * V)) (k : string) (v : V) (k' : string) :
  In k' (map fst (dict_set d k v)) <-> k' = k \/ In k' (map fst d).
Proof.
  induction d as [|[k0 v0] d IH]; cbn.
  - intuition.
  - destruct (String.eqb k0 k) eqn:E; cbn.
    + apply String.eqb_eq in E. subst. intuition.
    + rewrite IH. intuition.
Qed.

Lemma dict_set_nodup {V} (d : list (string * V)) (k : string) (v : V) :
  NoDup (map fst d) -> NoDup (map fst (dict_set d k v)).
Proof.
  induction d as [|[k0 v0] d IH]; cbn; intros Hn.
  - constructor; [intros [] | constructor].
  - destruct (String.eqb k0 k) eqn:E; cbn; [exact Hn|].
    inversion Hn as [|? ? Hnot Hn']; subst.
    constructor; [|now apply IH].
    rewrite dict_set_keys. intros [-> | Hin]; [|contradiction].
    now rewrite String.eqb_refl in E.
Qed.

Lemma dict_set_values {V} (d : list (string * V)) (k : string) (v : V) (kv : string * V) :
  In kv (dict_set d k v) -> kv = (k, v) \/ In kv d.
Proof.
  induction d as [|[k0 v0] d IH]; cbn.
  - intuition.
  - destruct (String.eqb k0 k) eqn:E; cbn.
    + apply String.eqb_eq in E. subst. intuition.
    + intros [H | H]; [now right; left|].
      destruct (IH H); intuition.
Qed.

(** The dictionary built from a list of files, keyed by [key]. *)
Section Unique.

Variable key : Path -> string.

Let build (files : list Path) (d : list (string * Path)) : list (string * Path) :=
  fold_left (fun d f => dict_set d (key f) f) files d.

Lemma build_nodup files d : NoDup (map fst d) -> NoDup (map fst (build files d)).
Proof.
  revert d. induction files as [|f files IH]; intros d Hn; cbn; [exact Hn|].
  apply IH. now apply dict_set_nodup.
Qed.

Lemma build_keyed files d :
  Forall (fun kv => fst kv = key (snd kv)) d ->
  Forall (fun kv => fst kv = key (snd kv)) (build files d).
Proof.
  revert d. induction files as [|f files IH]; intros d Hd; cbn; [exact Hd|].
  apply IH. apply Forall_forall. intros kv Hin.
  apply dict_set_values in Hin as [-> | Hin]; [reflexivity|].
  rewrite Forall_forall in Hd. now apply Hd.
Qed.

Lemma build_values files d kv :
  In kv (build files d) -> In (snd kv) files \/ In kv d.
Proof.
  revert d. induction files as [|f files IH]; intros d Hin; cbn in *; [now right|].
  apply IH in Hin as [Hin | Hin]; [now left; right|].
  apply dict_set_values in Hin as [-> | Hin]; [now left; left | now right].
Qed.

Lemma build_has_key files d k :
  In k (map key files) \/ In k (map fst d) -> In k (map fst (build files d)).
Proof.
  revert d. induction files as [|f files IH]; intros d Hin; cbn in *.
  - destruct Hin as [[] | Hin]. exact Hin.
  - apply IH. rewrite dict_set_keys.
    destruct Hin as [[<- | Hin] | Hin]; intuition.
Qed.

Lemma keyed_map (d : list (string * Path)) :
  Forall (fun kv => fst kv = key (snd kv)) d ->
  map key (map snd d) = map fst d.
Proof.
  induction 1 as [|kv d Hkv _ IH]; cbn; [reflexivity|].
  now rewrite IH, Hkv.
Qed.

End Unique.

(** X12.  The list [find_heif_files] returns holds no two files with the
    same resolved path: a file reached twice, as an argument and through
    a directory, or through two patterns, is returned once. *)
Theorem discovered_files_are_distinct (t : Tree) (paths : list Path) :
  NoDup (map (resolved t) (find_heif_files t paths)).
Proof.
  rewrite find_heif_files_eq.
  eapply Permutation_NoDup.
  - apply Permutation_map. symmetry. apply sorted_perm.
  - rewrite keyed_map by (apply build_keyed; constructor).
    apply build_nodup. constructor.
Qed.


(** *** What is discovered *)

Lemma in_sorted {A} (key : A -> string) (l : list A) (x : A) :
  In x (sorted key l) <-> In x l.
Proof.
  split; apply Permutation_in; [apply sorted_perm | symmetry; apply sorted_perm].
Qed.

Lemma discovered_in_candidates (t : Tree) (paths : list Path) (f : Path) :
  In f (find_heif_files t paths) -> In f (candidates t paths).
Proof.
  rewrite find_heif_files_eq, in_sorted, in_map_iff.
  intros ((k & g) & <- & Hin).
  apply build_values in Hin as [Hin | []]. exact Hin.
Qed.

Lemma candidate_is_represented (t : Tree) (paths : list Path) (f : Path) :
  In f (candidates t paths) ->
  exists g, In g (find_heif_files t paths) /\ resolved t g = resolved t f.
Proof.
  intros Hin.
  assert (Hk : In (resolved t f)
                  (map fst (fold_left (fun d f => dict_set d (resolved t f) f)
                                      (candidates t paths) []))).
  { apply build_has_key. left. now apply in_map. }
  apply in_map_iff in Hk as ((k & g) & Hkey & Hg). cbn in Hkey. subst k.
  exists g. split.
  - rewrite find_heif_files_eq, in_sorted. apply in_map_iff.
    now exists (resolved t f, g).
  - assert (Hd : Forall (fun kv => fst kv = resolved t (snd kv))
                   (fold_left (fun d f => dict_set d (resolved t f) f)
                              (candidates t paths) []))
      by (apply build_keyed; constructor).
    rewrite Forall_forall in Hd. specialize (Hd _ Hg). cbn in Hd. now symmetry.
Qed.

Lemma in_candidates (t : Tree) (paths : list Path) (f : Path) :
  In f (candidates t paths) <->
  exists p, In p paths /\
    ((is_dir t p = true /\ In f (walk t p) /\
      exists ext, In ext HEIF_EXTS /\
        (fnmatch_star (case_sensitive t) (name f) ext = true \/
         fnmatch_star (case_sensitive t) (name f) (Str.upper ext) = true)) \/
     (is_dir t p = false /\ is_file t p = true /\
      str_in (Str.lower (suffix p)) HEIF_EXTS = true /\ f = p)).
Proof.
  unfold candidates. rewrite in_flat_map. split.
  - intros (p & Hp & Hin). exists p. split; [exact Hp|].
    destruct (is_dir t p) eqn:Hd.
    + left. split; [reflexivity|].
      apply in_flat_map in Hin as (ext & Hext & Hin).
      unfold rglob in Hin. rewrite in_app_iff, !filter_In in Hin.
      destruct Hin as [[Hw Hm] | [Hw Hm]]; (split; [exact Hw|]);
        exists ext; (split; [exact Hext|]); [now left | now right].
    + right. destruct (is_file t p) eqn:Hf; [|destruct Hin].
      destruct (str_in (Str.lower (suffix p)) HEIF_EXTS) eqn:Hs;
        cbn in Hin; [|destruct Hin].
      destruct Hin as [<- | []]. now repeat split.
  - intros (p & Hp & [(Hd & Hw & ext & Hext & Hm) | (Hd & Hf & Hs & ->)]);
      exists p; (split; [exact Hp|]); rewrite Hd.
    + apply in_flat_map. exists ext. split; [exact Hext|].
      unfold rglob. rewrite in_app_iff, !filter_In. intuition.
    + rewrite Hf, Hs. now left.
Qed.

(** X14.  Every file [find_heif_files] returns was asked for: it is an
    argument that is a file (and not a directory) whose lowered suffix is
    a recognised extension, or it is an entry below an argument that is
    a directory and its name matches the pattern of a recognised
    extension, spelled in lower or in upper case.  An argument that is
    neither, and an entry that matches no pattern, is never returned. *)
Theorem discovered_files_come_from_the_arguments
    (t : Tree) (paths : list Path) (f : Path) :
  In f (find_heif_files t paths) ->
  exists p, In p paths /\
    ((is_dir t p = true /\ In f (walk t p) /\
      exists ext, In ext HEIF_EXTS /\
        (fnmatch_star (case_sensitive t) (name f) ext = true \/
         fnmatch_star (case_sensitive t) (name f) (Str.upper ext) = true)) \/
     (is_dir t p = false /\ is_file t p = true /\
      str_in (Str.lower (suffix p)) HEIF_EXTS = true /\ f = p)).
Proof.
  intros Hin. apply in_candidates. now apply discovered_in_candidates.
Qed.

Lemma discovered_files_come_from_the_arguments_witness :
  exists p, In p [Album.photos] /\
    ((is_dir Album.tree p = true /\ In Album.upper_case (walk Album.tree p) /\
      exists ext, In ext HEIF_EXTS /\
        (fnmatch_star (case_sensitive Album.tree) (name Album.upper_case) ext = true \/
         fnmatch_star (case_sensitive Album.tree) (name Album.upper_case)
                      (Str.upper ext) = true)) \/
     (is_dir Album.tree p = false /\ is_file Album.tree p = true /\
      str_in (Str.lower (suffix p)) HEIF_EXTS = true /\ Album.upper_case = p)).
Proof.
  apply (discovered_files_come_from_the_arguments Album.tree [Album.photos]
           Album.upper_case).
  right. left. reflexivity.
Defined.

Lemma chars_lower (s : string) :
  Str.chars (Str.lower s) = map Str.lower_char (Str.chars s).
Proof. unfold Str.lower. apply chars_text. Qed.

Lemma endswith_lower (s e : string) :
  Str.endswith s e = true -> Str.endswith (Str.lower s) (Str.lower e) = true.
Proof.
  unfold Str.endswith. rewrite !chars_lower, !length_map.
  intros H. apply andb_true_iff in H as [Hl He]. rewrite Hl. cbn [andb].
  apply String.eqb_eq in He. apply String.eqb_eq.
  rewrite skipn_map.
  apply (f_equal Str.chars) in He. rewrite chars_text in He. rewrite He.
  reflexivity.
Qed.


Lemma recognised_extension_cases (ext : string) :
  In ext HEIF_EXTS ->
  Str.lower ext = ext /\ Str.lower (Str.upper ext) = ext.
Proof.
  intros [<- | [<- | [<- | [<- | []]]]]; split; reflexivity.
Qed.


(** X15.  A file below a directory argument whose name ends with a
    recognised extension spelled all in lower case, or all in upper case,
    is discovered, on either flavour of path: the list returned holds a
    file with the same resolved path. *)
Theorem lower_and_upper_case_extensions_are_discovered
    (t : Tree) (paths : list Path) (p f : Path) (ext : string) :
  In p paths ->
  is_dir t p = true ->
  In f (walk t p) ->
  In ext HEIF_EXTS ->
  Str.endswith (name f) ext = true \/ Str.endswith (name f) (Str.upper ext) = true ->
  exists g, In g (find_heif_files t paths) /\ resolved t g = resolved t f.
Proof.
  intros Hp Hd Hw Hext Hm.
  apply candidate_is_represented. apply in_candidates.
  exists p. split; [exact Hp|]. left. split; [exact Hd|]. split; [exact Hw|].
  exists ext. split; [exact Hext|].
  unfold fnmatch_star. destruct (case_sensitive t); [exact Hm|].
  destruct Hm as [Hm | Hm]; [left | right]; now apply endswith_lower.
Qed.

Lemma lower_and_upper_case_extensions_are_discovered_witness :
  exists g, In g (find_heif_files Album.tree [Album.photos]) /\
            resolved Album.tree g = resolved Album.tree Album.upper_case.
Proof.
  apply (@lower_and_upper_case_extensions_are_discovered
           Album.tree [Album.photos] Album.photos Album.upper_case ".heif").
  - now left.
  - reflexivity.
  - right. right. left. reflexivity.
  - right. left. reflexivity.
  - right. reflexivity.
Defined.

(** X16.  On a flavour of path that matches patterns without case (the
    Windows one), a file below a directory argument is discovered
    whenever its lowered name ends with a recognised extension, however
    the extension is spelled. *)
Theorem any_case_is_discovered_when_patterns_ignore_case
    (t : Tree) (paths : list Path) (p f : Path) (ext : string) :
  case_sensitive t = false ->
  In p paths ->
  is_dir t p = true ->
  In f (walk t p) ->
  In ext HEIF_EXTS ->
  Str.endswith (Str.lower (name f)) ext = true ->
  exists g, In g (find_heif_files t paths) /\ resolved t g = resolved t f.
Proof.
  intros Hc Hp Hd Hw Hext Hm.
  apply candidate_is_represented. apply in_candidates.
  exists p. split; [exact Hp|]. left. split; [exact Hd|]. split; [exact Hw|].
  exists ext. split; [exact Hext|]. left.
  unfold fnmatch_star. rewrite Hc.
  destruct (recognised_extension_cases Hext) as [-> _]. exact Hm.
Qed.

Lemma any_case_is_discovered_when_patterns_ignore_case_witness :
  let t := mkTree (is_dir Album.tree) (is_file Album.tree) (walk Album.tree)
                  (resolve Album.tree) false in
  exists g, In g (find_heif_files t [Album.photos]) /\
            resolved t g = resolved t Album.mixed_case.
Proof.
  apply (@any_case_is_discovered_when_patterns_ignore_case
           (mkTree (is_dir Album.tree) (is_file Album.tree) (walk Album.tree)
                   (resolve Album.tree) false)
           [Album.photos] Album.photos Album.mixed_case ".heic").
  - reflexivity.
  - now left.
  - reflexivity.
  - left. reflexivity.
  - left. reflexivity.
  - reflexivity.
Defined.



(** * The prompt and the driver *)





Lemma count_status_zero (s : Status) (l : list Outcome) :
  count_status s l = 0 <-> forall o, In o l -> status_of o <> s.
Proof.
  unfold count_status. induction l as [|o l IH]; cbn.
  - split; [intros _ o [] | reflexivity].
  - destruct (status_eqb (status_of o) s) eqn:E; cbn.
    + split; [discriminate|]. intros H. exfalso. apply (H o); [now left|].
      destruct (status_of o), s; try discriminate E; reflexivity.
    + rewrite IH. split.
      * intros H o' [<- | Hin]; [|now apply H].
        intros Heq. rewrite Heq in E. now destruct s.
      * intros H o' Hin. apply H. now right.
Qed.

(** X20.  When every future returns an outcome, [main]'s exit code is 0
    if none of the outcomes the loop got to is Failed, and 2 otherwise.
    Outcomes the loop did not get to, after an interrupt, have no part in
    the exit code. *)
Theorem exit_code_reflects_counted_failures (cs : list (Outcome * bool)) :
  exists t,
    drain (returned cs) tally0 = Return t /\
    (exit_code t = 0%Z <-> forall o, In o (drained cs) -> status_of o <> failed) /\
    (exit_code t = 2%Z <-> exists o, In o (drained cs) /\ status_of o = failed).
Proof.
  destruct (drain_counts cs tally0) as (t & E & _ & _ & H3). cbn in H3.
  exists t. split; [exact E|].
  unfold exit_code. rewrite H3.
  destruct (count_status failed (drained cs)) as [|n] eqn:Ec; cbn [Nat.eqb].
  - pose proof (proj1 (count_status_zero failed (drained cs)) Ec) as Hz.
    split.
    + split; [intros _; exact Hz | reflexivity].
    + split; [discriminate|]. intros (o & Hin & Ho). now apply Hz in Hin.
  - assert (Hex : exists o, In o (drained cs) /\ status_of o = failed).
    { unfold count_status in Ec.
      destruct (filter (fun o => status_eqb (status_of o) failed) (drained cs))
        as [|o l] eqn:Ef; [discriminate|].
      assert (Hin : In o (filter (fun o => status_eqb (status_of o) failed)
                                 (drained cs))) by (rewrite Ef; now left).
      apply filter_In in Hin as [Hin Hs]. exists o. split; [exact Hin|].
      destruct (status_of o); try discriminate Hs; reflexivity. }
    split.
    + split; [discriminate|]. intros Hz. destruct Hex as (o & Hin & Ho).
      now apply Hz in Hin.
    + split; [intros _; exact Hex | reflexivity].
Qed.



(** X22.  A future whose result raises: if the loop gets to it (no
    interrupt was seen before), a [KeyboardInterrupt] ends the loop with
    the tally of the outcomes counted so far, and any other exception
    leaves the loop, so that no tally is reported at all; the completions
    after it are not looked at. *)
Theorem raising_future_ends_the_loop
    (pre : list (Outcome * bool)) (e : exc) (stop : bool)
    (rest : list (res Outcome * bool)) :
  forallb (fun c => negb (snd c)) pre = true ->
  exists t,
    drain (returned pre) tally0 = Return t /\
    drain (returned pre ++ (Raise e, stop) :: rest) tally0
    = if isinstance e [KeyboardInterrupt] then Return t else Raise e.
Proof.
  generalize tally0. induction pre as [|[o s] pre IH]; intros t0 Hp.
  - exists t0. split; reflexivity.
  - cbn in Hp. destruct s; [discriminate|]. cbn [negb andb] in Hp.
    cbn [returned map app drain fst snd].
    apply (IH (count o t0) Hp).
Qed.

Lemma raising_future_ends_the_loop_witness :
  let pre := [((converted, "/photos/a.heic", "/photos/a.jpg"), false)] in
  let e := mkExc MemoryError "out of memory" in
  exists t,
    drain (returned pre) tally0 = Return t /\
    drain (returned pre ++ (Raise e, false) :: []) tally0
    = if isinstance e [KeyboardInterrupt] then Return t else Raise e.
Proof.
  apply (@raising_future_ends_the_loop
           [((converted, "/photos/a.heic", "/photos/a.jpg"), false)]
           (mkExc MemoryError "out of memory") false []).
  reflexivity.
Defined.

(** * The worker on a source that does not decode *)

(** X23.  A source that [Image.open] rejects with an error the worker
    catches, when no file is at the destination: the worker returns
    Failed with [repr] of the error, its calls are the [exists] on the
    destination, the [open], and the cleanup's [exists]; nothing is
    written or removed, and the file system is the one it started on. *)
Theorem undecodable_source_changes_nothing
    (C : Codec) (src dst : Path) (overwrite : bool)
    (quality subsampling : Z) (optimize progressive : bool) (icc_mode : string)
    (w : World) (e : exc) :
  with_suffix src ".jpg" = Return dst ->
  content (fs w) dst = None ->
  Image_open C (content (fs w) src) = Raise e ->
  isinstance e worker_catches = true ->
  _convert_one C src overwrite quality subsampling optimize progressive icc_mode w
  = (Return (failed, path_str src, repr e),
     mkWorld (fs w)
             (log w ++ [(EvExists dst false, fs w);
                        (EvOpen src, fs w);
                        (EvExists dst false, fs w)])%list).
Proof.
  intros Hd Hn Ho Hc.
  unfold _convert_one, bind, lift, path_exists, fs_has. rewrite Hd.
  cbv beta iota. rewrite Hn. cbn [andb].
  unfold try_except, try_body, bind, with_block, bind, open_image.
  cbn [fs log]. rewrite Ho. fold worker_catches. rewrite Hc.
  unfold cleanup, try_except, bind, path_exists, fs_has, ret. cbn [fs log].
  rewrite Hn. rewrite <- !app_assoc. reflexivity.
Qed.

Lemma undecodable_source_changes_nothing_witness :
  let w := Fixture.start (Fixture.disk [x00; x10] None (fun _ => false)) in
  _convert_one (Fixture.codec Fixture.save_ok) Fixture.a_heic false
               92 2 true true "srgb" w
  = (Return (failed, path_str Fixture.a_heic,
             repr (mkExc UnidentifiedImageError "cannot identify image file")),
     mkWorld (fs w)
             (log w ++ [(EvExists Fixture.a_jpg false, fs w);
                        (EvOpen Fixture.a_heic, fs w);
                        (EvExists Fixture.a_jpg false, fs w)])%list).
Proof.
  apply (@undecodable_source_changes_nothing
           (Fixture.codec Fixture.save_ok) Fixture.a_heic Fixture.a_jpg false
           92 2 true true "srgb"
           (Fixture.start (Fixture.disk [x00; x10] None (fun _ => false)))
           (mkExc UnidentifiedImageError "cannot identify image file"));
    reflexivity.
Defined.

(** X24.  When an error leaves the worker, the worker has removed
    nothing: it has made no [unlink], of the source or of the
    destination, so the source is intact and whatever the encoder left at
    the destination stays there; no cleanup is run for such an error. *)
Theorem escaping_error_removes_nothing
    (C : Codec) (src dst : Path) (overwrite : bool)
    (quality subsampling : Z) (optimize progressive : bool) (icc_mode : string)
    (w : World) (e : exc) :
  with_suffix src ".jpg" = Return dst ->
  let run := _convert_one C src overwrite quality subsampling optimize
                          progressive icc_mode w in
  fst run = Raise e ->
  exists added,
    log (snd run) = (log w ++ added)%list /\
    (forall p r s, ~ In (EvUnlink p r, s) added) /\
    (forall p, Path_eqb p dst = false -> content (fs (snd run)) p = content (fs w) p) /\
    (content (fs (snd run)) dst = content (fs w) dst \/
     exists kw s, In (EvSave dst kw (Some e), s) added).
Proof.
  intros Hd.
  destruct (@convert_one_run C src dst overwrite quality subsampling optimize
              progressive icc_mode w Hd) as (r & s' & added & E & R).
  cbv zeta. rewrite E. cbn [fst snd fs log]. intros Er. subst r.
  exists added. split; [reflexivity|].
  inversion R; subst.
  - split; [|split; [reflexivity | now left]].
    intros p r s Hin. cbn in Hin.
    repeat (destruct Hin as [Hin | Hin]; [discriminate Hin|]). exact Hin.
  - split; [|split].
    + intros p r s Hin. cbn in Hin.
      repeat (destruct Hin as [Hin | Hin]; [discriminate Hin|]). exact Hin.
    + intros p Hp. simpl. now rewrite Hp.
    + right. exists kw, (fs w). cbn. intuition.
Qed.

Lemma escaping_error_removes_nothing_witness :
  let w := Fixture.start (Fixture.disk [xff; x10] (Some [x07]) (fun _ => false)) in
  let run := _convert_one (Fixture.codec Fixture.save_ok) Fixture.a_heic true
                          92 2 true true "srgb" w in
  content (fs (snd run)) Fixture.a_heic = Some [xff; x10] /\
  content (fs (snd run)) Fixture.a_jpg = Some [x07].
Proof.
  destruct (@escaping_error_removes_nothing
              (Fixture.codec Fixture.save_ok) Fixture.a_heic Fixture.a_jpg true
              92 2 true true "srgb"
              (Fixture.start
                 (Fixture.disk [xff; x10] (Some [x07]) (fun _ => false)))
              (mkExc DecompressionBombError "Image size exceeds limit")
              eq_refl eq_refl)
    as (added & _ & _ & Hframe & _).
  split; [apply Hframe; reflexivity | reflexivity].
Defined.
